(** * Media-query extractor and complexity scorer

    A shallow embedding of [src/extractors/media-queries.mjs]: the in-page
    stylesheet walk of [extractMediaQueries], the scorer
    [calculateComplexity], the filter stage [applyFilters], the grouping and
    sorting that [displayResults] does before it prints, and the host part
    of the file name of [saveResults], followed by the properties
    established about them.

    Conventions of the embedding.
    - A JavaScript string is a [string]; each [ascii] stands for one UTF-16
      code unit below 256.
    - Integer-valued JavaScript numbers (counters, lengths, pixel values) are
      [Z].  This is exact below 2^53, which covers every count and every
      pixel value a stylesheet can produce in practice.  The two genuinely
      fractional quantities of the scorer (the mean and 1.5 times the mean)
      are IEEE-754 binary64 values, computed with the Standard Library's
      [SpecFloat] operations at precision 53 and exponent bound 1024.
    - [null] is [None].
    - Objects used as dictionaries with a meaningful enumeration order
      (the [Map] of breakpoints, [breakpointPropertyCounts]) are association
      lists in insertion order; the [properties] object of a style rule, of
      which only the key set is ever consulted, is a [gmap].
    - The browser's object model (style sheets, CSS rules, declarations) is
      an input, described by the types of [Module DOM]. *)

From Stdlib Require Import ZArith String Ascii.
From Stdlib Require Import Floats.SpecFloat.
From Stdlib Require Import DecimalString.
From Stdlib Require DecimalPos DecimalZ.
From stdpp Require Import base gmap strings list sorting.

Local Open Scope Z_scope.

(** ** JavaScript strings *)

Module Js.

(** [s.startsWith(p)] *)
Fixpoint startsWith (p s : string) : bool :=
  match p, s with
  | EmptyString, _ => true
  | String a p', String b s' => if decide (a = b) then startsWith p' s' else false
  | String _ _, EmptyString => false
  end.

(** [s.includes(p)] *)
Fixpoint includes (p s : string) : bool :=
  startsWith p s ||
  match s with
  | EmptyString => false
  | String _ s' => includes p s'
  end.

(** [s.split(sep)] for a non-empty separator [sep]: the pieces between the
    occurrences of [sep] found from left to right, an occurrence never
    overlapping the previous one.  [skip] counts the characters of a matched
    separator that are still to be passed over, [cur] holds the current
    piece in reverse. *)
Fixpoint split_go (sep : string) (skip : nat) (cur : string) (s : string)
    : list string :=
  match s with
  | EmptyString => [String.rev cur]
  | String c s' =>
      match skip with
      | S k => split_go sep k cur s'
      | O =>
          if startsWith sep s
          then String.rev cur :: split_go sep (pred (String.length sep)) "" s'
          else split_go sep O (String c cur) s'
      end
  end.

Definition split (sep s : string) : list string := split_go sep O "" s.

(** The character classes [\s] and [\d] of a regular expression, on code
    units below 256. *)
Definition is_space (c : ascii) : bool :=
  let n := nat_of_ascii c in
  bool_decide (n = 9 ∨ n = 10 ∨ n = 11 ∨ n = 12 ∨ n = 13 ∨ n = 32 ∨ n = 160)%nat.

Definition is_digit (c : ascii) : bool :=
  let n := nat_of_ascii c in
  bool_decide (48 ≤ n ∧ n ≤ 57)%nat.

(** [\s*], greedy: the rest of [s] after its leading white space. *)
Fixpoint skip_spaces (s : string) : string :=
  match s with
  | String c s' => if is_space c then skip_spaces s' else s
  | EmptyString => s
  end.

(** [(\d+)], greedy: the leading digits of [s] and what follows them. *)
Fixpoint take_digits (s : string) : string * string :=
  match s with
  | String c s' =>
      if is_digit c
      then let '(ds, r) := take_digits s' in (String c ds, r)
      else (EmptyString, s)
  | EmptyString => (EmptyString, s)
  end.

(** [s] without the prefix [p], when it has it. *)
Fixpoint strip_prefix (p s : string) : option string :=
  match p, s with
  | EmptyString, _ => Some s
  | String a p', String b s' => if decide (a = b) then strip_prefix p' s' else None
  | String _ _, EmptyString => None
  end.

(** An attempt to match [/kw\s*(\d+)px/] at the start of [s]; the result is
    capture group 1.  White space, digits and the letter [p] are pairwise
    disjoint, so the greedy choice for [\s*] and for [\d+] is the only one
    that can be completed and backtracking never finds another match at the
    same position. *)
Definition match_px_here (kw s : string) : option string :=
  r ← strip_prefix kw s;
  let '(ds, r') := take_digits (skip_spaces r) in
  match ds with
  | EmptyString => None
  | String _ _ => if startsWith "px" r' then Some ds else None
  end.

(** [s.match(/kw\s*(\d+)px/)]: the leftmost match, reduced to its capture
    group ([None] is JavaScript's [null]). *)
Fixpoint match_px (kw s : string) : option string :=
  match match_px_here kw s with
  | Some ds => Some ds
  | None =>
      match s with
      | EmptyString => None
      | String _ s' => match_px kw s'
      end
  end.

(** [parseInt(ds)] for a string of decimal digits: the number that the digits
    denote.  This is the value that JavaScript computes when that number is
    below 2^53; above, JavaScript rounds it to a binary64 value. *)
Fixpoint parseInt_go (acc : Z) (ds : string) : Z :=
  match ds with
  | EmptyString => acc
  | String c ds' => parseInt_go (10 * acc + (Z.of_nat (nat_of_ascii c) - 48)) ds'
  end.

Definition parseInt (ds : string) : Z := parseInt_go 0 ds.

(** [String(n)] for an integer [n], as template literals format it: the
    decimal digits of [n], with a sign when it is negative.  This is what
    JavaScript prints for the integers below 2^53 in absolute value; from
    10^21 on JavaScript prints an exponent notation, which is not modelled. *)
Definition toString (n : Z) : string := NilZero.string_of_int (Z.to_int n).

(** Truthiness of a value that is a number or [null]. *)
Definition truthy (v : option Z) : bool :=
  match v with
  | Some n => negb (n =? 0)
  | None => false
  end.

(** Truthiness of a value that is a string, [null] or [undefined]. *)
Definition truthy_str (v : option string) : bool :=
  match v with
  | Some EmptyString => false
  | Some (String _ _) => true
  | None => false
  end.

(** *** Numbers that need not be integers *)

Abbreviation number := spec_float.

Definition prec : Z := 53.
Definition emax : Z := 1024.

(** The binary64 value of an integer. *)
Definition of_Z (n : Z) : number := binary_normalize prec emax n 0 false.

(** The literal [1.5]. *)
Definition one_and_a_half : number := binary_normalize prec emax 3 (-1) false.

Definition div (x y : number) : number := SFdiv prec emax x y.
Definition mul (x y : number) : number := SFmul prec emax x y.
Definition leb (x y : number) : bool := SFleb x y.
Definition gtb (x y : number) : bool := SFltb y x.

(** [Math.round(x)]: the integer nearest to [x], a tie going up.  On a
    finite [x = ± m * 2^e] this is [floor (x + 1/2)], computed exactly.  The
    scorer only rounds the quotient of two counters, which is finite; the
    value chosen here for infinities and NaN is never used. *)
Definition round (x : number) : Z :=
  match x with
  | S754_finite s m e =>
      let v := if s then Z.neg m else Z.pos m in
      if 0 <=? e then v * 2 ^ e
      else (v + 2 ^ (- e - 1)) `div` 2 ^ (- e)
  | _ => 0
  end.

End Js.

(** ** The browser's object model, as far as the extractor reads it *)

(** What evaluating an expression or a statement leads to: a value, or an
    exception carrying its [message]. *)
Inductive completion (A : Type) : Type :=
  | Normal (a : A)
  | Throw (message : string).

Arguments Normal {A} a.
Arguments Throw {A} message.

Module DOM.

(** A [CSSStyleDeclaration]: the indexed property names [style[i]] for
    [i < style.length], and [style.getPropertyValue]. *)
Record CSSStyleDeclaration := {
  names : list string;
  getPropertyValue : string → string;
}.

(** A rule nested in a media rule.  Only [innerRule.type], and for a style
    rule its [selectorText] and [style], are read. *)
Inductive InnerRule :=
  | STYLE_RULE (selectorText : string) (style : CSSStyleDeclaration)
  | OTHER_INNER_RULE.

(** A top-level rule of a sheet.  Only [rule.type], and for a media rule
    [rule.media.mediaText] and [rule.cssRules], are used. *)
Inductive CSSRule :=
  | MEDIA_RULE (mediaText : string) (cssRules : list InnerRule)
  | OTHER_RULE.

(** A [CSSStyleSheet].  Reading [cssRules] or [rules] gives a rule list or
    [null], or throws (a cross-origin sheet raises a [SecurityError]). *)
Record StyleSheet := {
  href : option string;
  cssRules : completion (option (list CSSRule));
  rules : completion (option (list CSSRule));
}.

End DOM.

(** ** The data model *)

Record StyleRule := {
  selector : string;
  properties : gmap string string;
}.

(** One [@media] block.  [matchCount] is absent ([None]) on the objects the
    extractor builds; [applyFilters] adds it. *)
Record MediaQuery := {
  condition : string;
  rules : list StyleRule;
  breakpoint : option Z;
  type : option string;
  matchCount : option Z;
}.

Record Summary := {
  totalMediaQueries : Z;
  (** a [Set] in insertion order while the sheets are walked, a sorted array
      afterwards *)
  uniqueBreakpoints : list Z;
  mostCommonBreakpoints : list Z;
}.

Record Breakdown := {
  breakpointCount : Z;
  propertyChangesPerBreakpoint : Z;
  nestedQueries : Z;
  overlaps : Z;
  totalQueries : Z;
}.

Module Problem.
Record t := {
  breakpoint : string;
  propertyCount : Z;
  reason : string;
}.
End Problem.

Record Analysis := {
  score : Z;
  level : string;
  recommendation : string;
  breakdown : Breakdown;
  problemBreakpoints : list Problem.t;
}.

(** The object built in the page, to which the host adds [complexity]
    ([None] while the property is absent). *)
Record MediaQueryData := {
  breakpoints : list (string * list MediaQuery);
  mediaQueries : list MediaQuery;
  summary : Summary;
  complexity : option Analysis;
}.

#[global] Instance StyleRule_eq_dec : EqDecision StyleRule.
Proof. solve_decision. Defined.
#[global] Instance MediaQuery_eq_dec : EqDecision MediaQuery.
Proof. solve_decision. Defined.

(** ** Association lists in insertion order *)

Module Assoc.
Section assoc.
Context {V : Type}.

(** [obj[k]], [map.get(k)] *)
Fixpoint get (k : string) (m : list (string * V)) : option V :=
  match m with
  | [] => None
  | (k', v) :: m' => if decide (k = k') then Some v else get k m'
  end.

(** [obj[k] = v], [map.set(k, v)]: an existing key keeps its place. *)
Fixpoint set (k : string) (v : V) (m : list (string * V)) : list (string * V) :=
  match m with
  | [] => [(k, v)]
  | (k', v') :: m' =>
      if decide (k = k') then (k, v) :: m' else (k', v') :: set k v m'
  end.
End assoc.
End Assoc.

(** [set.add(x)] on a [Set] kept in insertion order. *)
Definition Set_add (x : Z) (s : list Z) : list Z :=
  if decide (x ∈ s) then s else s ++ [x].

(** ** Evaluation in the page: state and exceptions

    The closure passed to [page.evaluate] mutates [results] and writes to the
    console; reading the rules of a sheet may throw.  A computation maps the
    state before to a completion and the state after; what was mutated before
    an exception stays mutated. *)

Record PageState := {
  results : MediaQueryData;
  console : list string;
}.

Definition Eval (A : Type) : Type := PageState → completion A * PageState.

#[global] Instance Eval_ret : MRet Eval := λ A a st, (Normal a, st).

#[global] Instance Eval_bind : MBind Eval := λ A B f m st,
  match m st with
  | (Normal a, st') => f a st'
  | (Throw e, st') => (Throw e, st')
  end.

(** Reading a property whose getter may throw. *)
Definition read {A} (c : completion A) : Eval A := λ st, (c, st).

(** The object [results] as it stands. *)
Definition get_results : Eval MediaQueryData := λ st, (Normal (results st), st).

(** An assignment to, or a mutating method call on, a part of [results]. *)
Definition update (f : MediaQueryData → MediaQueryData) : Eval unit :=
  λ st, (Normal tt, {| results := f (results st); console := console st |}).

(** [console.warn(...)], the arguments joined by a space. *)
Definition console_warn (line : string) : Eval unit :=
  λ st, (Normal tt, {| results := results st; console := console st ++ [line] |}).

(** [try { body } catch (err) { handler(err.message) }] *)
Definition try_catch {A} (body : Eval A) (handler : string → Eval A) : Eval A :=
  λ st,
    match body st with
    | (Normal a, st') => (Normal a, st')
    | (Throw e, st') => handler e st'
    end.

(** [for (const x of l) { body(x) }] *)
Fixpoint for_of {A} (l : list A) (body : A → Eval unit) : Eval unit :=
  match l with
  | [] => mret tt
  | x :: l' => body x;; for_of l' body
  end.

(** ** The extractor: the closure evaluated in the page *)

(** [results.summary.totalMediaQueries++] *)
Definition incr_totalMediaQueries (r : MediaQueryData) : MediaQueryData :=
  {| breakpoints := breakpoints r;
     mediaQueries := mediaQueries r;
     summary := {| totalMediaQueries := totalMediaQueries (summary r) + 1;
                   uniqueBreakpoints := uniqueBreakpoints (summary r);
                   mostCommonBreakpoints := mostCommonBreakpoints (summary r) |};
     complexity := complexity r |}.

(** [results.summary.uniqueBreakpoints.add(b)] *)
Definition add_uniqueBreakpoint (b : Z) (r : MediaQueryData) : MediaQueryData :=
  {| breakpoints := breakpoints r;
     mediaQueries := mediaQueries r;
     summary := {| totalMediaQueries := totalMediaQueries (summary r);
                   uniqueBreakpoints := Set_add b (uniqueBreakpoints (summary r));
                   mostCommonBreakpoints := mostCommonBreakpoints (summary r) |};
     complexity := complexity r |}.

(** [results.mediaQueries.push(mediaQuery)] *)
Definition push_mediaQuery (mq : MediaQuery) (r : MediaQueryData) : MediaQueryData :=
  {| breakpoints := breakpoints r;
     mediaQueries := mediaQueries r ++ [mq];
     summary := summary r;
     complexity := complexity r |}.

(** The template literal [`${mq.type}-${mq.breakpoint}`]. *)
Definition breakpointKey (mq : MediaQuery) : string :=
  default "null" (type mq) +:+ "-" +:+
  match breakpoint mq with
  | Some n => Js.toString n
  | None => "null"
  end.

(** The grouping statements:
    [if (!results.breakpoints.has(key)) results.breakpoints.set(key, []);
     results.breakpoints.get(key).push(mediaQuery)] *)
Definition group_by_breakpoint (mq : MediaQuery) (r : MediaQueryData) : MediaQueryData :=
  let key := breakpointKey mq in
  let m :=
    match Assoc.get key (breakpoints r) with
    | Some _ => breakpoints r
    | None => Assoc.set key [] (breakpoints r)
    end in
  {| breakpoints := Assoc.set key (default [] (Assoc.get key m) ++ [mq]) m;
     mediaQueries := mediaQueries r;
     summary := summary r;
     complexity := complexity r |}.

(** [properties[prop] = value] on the plain object [properties], for a string
    [value].  The name [__proto__] is not stored: the assignment goes to the
    setter that the object inherits, which does nothing when the value is
    not an object, and no own key is created.  Any other name becomes, or
    stays, an own key. *)
Definition assign_property (properties : gmap string string) (prop value : string)
    : gmap string string :=
  if decide (prop = "__proto__") then properties else <[prop := value]> properties.

(** The loop over [style]: [properties[prop] = style.getPropertyValue(prop)]. *)
Definition read_properties (style : DOM.CSSStyleDeclaration) : gmap string string :=
  foldl (λ properties prop,
           assign_property properties prop (DOM.getPropertyValue style prop))
        ∅ (DOM.names style).

(** The loop over [rule.cssRules]: one [StyleRule] per nested style rule, in
    order; other nested rules are passed over. *)
Definition read_innerRule (innerRule : DOM.InnerRule) : option StyleRule :=
  match innerRule with
  | DOM.STYLE_RULE selectorText style =>
      Some {| selector := selectorText; properties := read_properties style |}
  | DOM.OTHER_INNER_RULE => None
  end.

(** The body of the loop over the rules of a sheet. *)
Definition process_rule (rule : DOM.CSSRule) : Eval unit :=
  match rule with
  | DOM.MEDIA_RULE mediaText cssRules =>
      update incr_totalMediaQueries;;
      let minWidthMatch := Js.match_px "min-width:" mediaText in
      let maxWidthMatch := Js.match_px "max-width:" mediaText in
      '(b, t) ←
        match minWidthMatch, maxWidthMatch with
        | Some digits, _ =>
            let b := Js.parseInt digits in
            update (add_uniqueBreakpoint b);; mret (Some b, Some "min-width")
        | None, Some digits =>
            let b := Js.parseInt digits in
            update (add_uniqueBreakpoint b);; mret (Some b, Some "max-width")
        | None, None => mret (None, None)
        end;
      let mediaQuery :=
        {| condition := mediaText;
           rules := omap read_innerRule cssRules;
           breakpoint := b;
           type := t;
           matchCount := None |} in
      update (push_mediaQuery mediaQuery);;
      if Js.truthy (breakpoint mediaQuery)
      then update (group_by_breakpoint mediaQuery)
      else mret tt
  | DOM.OTHER_RULE => mret tt
  end.

(** [sheet.cssRules || sheet.rules] *)
Definition read_rules (sheet : DOM.StyleSheet) : Eval (option (list DOM.CSSRule)) :=
  r ← read (DOM.cssRules sheet);
  match r with
  | Some l => mret (Some l)
  | None => read (DOM.rules sheet)
  end.

(** [sheet.href && !sheet.href.startsWith(window.location.origin)] *)
Definition foreign (origin : string) (sheet : DOM.StyleSheet) : bool :=
  Js.truthy_str (DOM.href sheet) &&
  negb (Js.startsWith origin (default "" (DOM.href sheet))).

(** The [try] block of the loop over the sheets; [continue] ends it. *)
Definition process_sheet (origin : string) (sheet : DOM.StyleSheet) : Eval unit :=
  if foreign origin sheet then mret tt
  else
    rules ← read_rules sheet;
    match rules with
    | None => mret tt
    | Some rules => for_of rules process_rule
    end.

(** The conversions before [return results]: the set of breakpoints becomes
    an array sorted by [(a, b) => a - b]; [Object.fromEntries] keeps the
    entries of the map, whose keys are pairwise distinct strings, in order. *)
Definition finish (r : MediaQueryData) : MediaQueryData :=
  {| breakpoints := breakpoints r;
     mediaQueries := mediaQueries r;
     summary := {| totalMediaQueries := totalMediaQueries (summary r);
                   uniqueBreakpoints := merge_sort Z.le (uniqueBreakpoints (summary r));
                   mostCommonBreakpoints := mostCommonBreakpoints (summary r) |};
     complexity := complexity r |}.

Definition initial_results : MediaQueryData :=
  {| breakpoints := [];
     mediaQueries := [];
     summary := {| totalMediaQueries := 0;
                   uniqueBreakpoints := [];
                   mostCommonBreakpoints := [] |};
     complexity := None |}.

(** The body of the loop over the sheets: the [try] block and its handler,
    [console.warn('Could not access stylesheet:', err.message)]. *)
Definition sheet_step (origin : string) (sheet : DOM.StyleSheet) : Eval unit :=
  try_catch (process_sheet origin sheet)
            (λ message, console_warn ("Could not access stylesheet: " +:+ message)).

(** The closure of [page.evaluate], on [document.styleSheets] and
    [window.location.origin]. *)
Definition evaluate (origin : string) (styleSheets : list DOM.StyleSheet)
    : Eval MediaQueryData :=
  for_of styleSheets (sheet_step origin);;
  r ← get_results;
  mret (finish r).

(** ** The complexity scorer *)

(** *** 1. Breakpoint count score *)

Definition breakpointScore_of (breakpointCount : Z) : Z :=
  if breakpointCount =? 0 then 0
  else if breakpointCount <=? 3 then 5
  else if breakpointCount <=? 5 then 10
  else if breakpointCount <=? 7 then 15
  else if breakpointCount <=? 10 then 20
  else 25.

(** *** 2. Property changes score *)

(** The key under which a media query is counted:
    [mq.breakpoint ? `${mq.type}-${mq.breakpoint}` : 'other'] *)
Definition countKey (mq : MediaQuery) : string :=
  if Js.truthy (breakpoint mq) then breakpointKey mq else "other".

(** [Object.keys(rule.properties).length] *)
Definition propCount (rule : StyleRule) : Z := Z.of_nat (size (properties rule)).

(** The two counters of the first loop: [totalProperties] and
    [breakpointPropertyCounts]. *)
Definition Counters : Type := Z * list (string * Z).

(** [totalProperties += propCount; breakpointPropertyCounts[key] += propCount];
    the key is present when this runs, see [count_mediaQuery]. *)
Definition count_rule (key : string) (c : Counters) (rule : StyleRule) : Counters :=
  let '(totalProperties, breakpointPropertyCounts) := c in
  (totalProperties + propCount rule,
   Assoc.set key (default 0 (Assoc.get key breakpointPropertyCounts) + propCount rule)
             breakpointPropertyCounts).

(** The body of the first loop over [data.mediaQueries]; a counter that is
    missing or zero is set to zero first. *)
Definition count_mediaQuery (c : Counters) (mq : MediaQuery) : Counters :=
  let '(totalProperties, breakpointPropertyCounts) := c in
  let key := countKey mq in
  let breakpointPropertyCounts :=
    match Assoc.get key breakpointPropertyCounts with
    | Some n => if n =? 0 then Assoc.set key 0 breakpointPropertyCounts
                else breakpointPropertyCounts
    | None => Assoc.set key 0 breakpointPropertyCounts
    end in
  foldl (count_rule key) (totalProperties, breakpointPropertyCounts) (rules mq).

Definition count_properties (mqs : list MediaQuery) : Counters :=
  foldl count_mediaQuery (0, []) mqs.

(** [breakpointCount > 0 ? totalProperties / breakpointCount : 0] *)
Definition avgPropertiesPerBreakpoint_of (breakpointCount totalProperties : Z) : Js.number :=
  if 0 <? breakpointCount
  then Js.div (Js.of_Z totalProperties) (Js.of_Z breakpointCount)
  else Js.of_Z 0.

Definition propertyScore_of (avgPropertiesPerBreakpoint : Js.number) : Z :=
  if Js.leb avgPropertiesPerBreakpoint (Js.of_Z 5) then 5
  else if Js.leb avgPropertiesPerBreakpoint (Js.of_Z 15) then 12
  else if Js.leb avgPropertiesPerBreakpoint (Js.of_Z 30) then 20
  else 30.

(** *** 3. Nested and combined queries score *)

(** [mq.condition.includes(' and ') && mq.condition.split(' and ').length > 2] *)
Definition combined (mq : MediaQuery) : bool :=
  Js.includes " and " (condition mq) &&
  (2 <? Z.of_nat (length (Js.split " and " (condition mq)))).

(** [mq.condition.match(/(orientation|resolution|aspect-ratio|hover|pointer)/)]
    is not [null]: one of the alternatives occurs in the condition. *)
Definition features : list string :=
  ["orientation"; "resolution"; "aspect-ratio"; "hover"; "pointer"].

Definition mentions_feature (mq : MediaQuery) : bool :=
  existsb (λ feature, Js.includes feature (condition mq)) features.

(** The body of the second loop: two independent [if] statements. *)
Definition count_nested (nestedOrCombinedCount : Z) (mq : MediaQuery) : Z :=
  let nestedOrCombinedCount :=
    if combined mq then nestedOrCombinedCount + 1 else nestedOrCombinedCount in
  if mentions_feature mq then nestedOrCombinedCount + 1 else nestedOrCombinedCount.

Definition nestedOrCombinedCount_of (mqs : list MediaQuery) : Z :=
  foldl count_nested 0 mqs.

Definition nestedScore_of (nestedOrCombinedCount : Z) : Z :=
  if nestedOrCombinedCount =? 0 then 0
  else if nestedOrCombinedCount <=? 2 then 5
  else if nestedOrCombinedCount <=? 5 then 12
  else 20.

(** *** 4. Overlap score *)

(** [data.mediaQueries.filter(mq => mq.type === t && mq.breakpoint)
        .map(mq => mq.breakpoint)] *)
Definition widths (t : string) (mqs : list MediaQuery) : list Z :=
  omap breakpoint
       (filter (λ mq, bool_decide (type mq = Some t) && Js.truthy (breakpoint mq)) mqs).

Definition overlapCount_of (mqs : list MediaQuery) : Z :=
  let minWidths := widths "min-width" mqs in
  let maxWidths := widths "max-width" mqs in
  foldl (λ overlapCount min,
           foldl (λ overlapCount max,
                    if Z.abs (min - max) <=? 1 then overlapCount + 1 else overlapCount)
                 overlapCount maxWidths)
        0 minWidths.

Definition overlapScore_of (overlapCount : Z) : Z :=
  if overlapCount =? 0 then 0
  else if overlapCount <=? 2 then 5
  else if overlapCount <=? 5 then 10
  else 15.

(** *** 5. Total query count score *)

Definition queryCountScore_of (totalQueries : Z) : Z :=
  if totalQueries <=? 10 then 2
  else if totalQueries <=? 25 then 5
  else if totalQueries <=? 50 then 7
  else 10.

(** *** Level, recommendation and problem breakpoints *)

Definition level_of (score : Z) : string * string :=
  if score <=? 20 then
    ("Simple",
     "Use basic responsive analyzer. Site has straightforward breakpoint behavior.")
  else if score <=? 40 then
    ("Moderate",
     "Use standard responsive analysis tools. Site has typical mobile-first or desktop-first patterns.")
  else if score <=? 60 then
    ("Complex",
     "Use comprehensive multi-viewport analysis. Site has intricate responsive behavior.")
  else if score <=? 80 then
    ("Very Complex",
     "Use comprehensive analyzer with detailed breakpoint analysis. Consider iterative refinement approach.")
  else
    ("Extremely Complex",
     "Site has highly complex responsive patterns. Recommend component-by-component analysis with positioning calculator.").

(** [count > avgPropertiesPerBreakpoint * 1.5 && count > 20] *)
Definition is_problem (avgPropertiesPerBreakpoint : Js.number) (count : Z) : bool :=
  Js.gtb (Js.of_Z count) (Js.mul avgPropertiesPerBreakpoint Js.one_and_a_half) &&
  (20 <? count).

Definition problem_reason : string :=
  "High number of property changes - may indicate major layout shift".

(** The loop over [Object.entries(breakpointPropertyCounts)], which
    enumerates the keys in the order of their first insertion. *)
Definition problemBreakpoints_of (avgPropertiesPerBreakpoint : Js.number)
    (breakpointPropertyCounts : list (string * Z)) : list Problem.t :=
  omap (λ '(breakpoint, count),
          if is_problem avgPropertiesPerBreakpoint count
          then Some {| Problem.breakpoint := breakpoint;
                       Problem.propertyCount := count;
                       Problem.reason := problem_reason |}
          else None)
       breakpointPropertyCounts.

(** *** [calculateComplexity]

    The maximum over [breakpointPropertyCounts] that the source also computes
    ([maxPropertiesAtBreakpoint]) is never read and is left out. *)
Definition calculateComplexity (data : MediaQueryData) : Analysis :=
  let breakpointCount := Z.of_nat (length (uniqueBreakpoints (summary data))) in
  let breakpointScore := breakpointScore_of breakpointCount in
  let '(totalProperties, breakpointPropertyCounts) :=
    count_properties (mediaQueries data) in
  let avgPropertiesPerBreakpoint :=
    avgPropertiesPerBreakpoint_of breakpointCount totalProperties in
  let propertyScore := propertyScore_of avgPropertiesPerBreakpoint in
  let nestedOrCombinedCount := nestedOrCombinedCount_of (mediaQueries data) in
  let nestedScore := nestedScore_of nestedOrCombinedCount in
  let overlapCount := overlapCount_of (mediaQueries data) in
  let overlapScore := overlapScore_of overlapCount in
  let totalQueries := totalMediaQueries (summary data) in
  let queryCountScore := queryCountScore_of totalQueries in
  let score :=
    breakpointScore + propertyScore + nestedScore + overlapScore + queryCountScore in
  {| score := score;
     level := fst (level_of score);
     recommendation := snd (level_of score);
     breakdown :=
       {| breakpointCount := breakpointCount;
          propertyChangesPerBreakpoint := Js.round avgPropertiesPerBreakpoint;
          nestedQueries := nestedOrCombinedCount;
          overlaps := overlapCount;
          totalQueries := totalQueries |};
     problemBreakpoints :=
       problemBreakpoints_of avgPropertiesPerBreakpoint breakpointPropertyCounts |}.

(** ** [extractMediaQueries]

    The part of the function that follows the page load: the closure is
    evaluated on the page's style sheets, then the host attaches the
    complexity analysis.  Launching the browser and loading the page are
    outside this model.  The result comes with what was written to the
    page's console. *)

(** [mediaQueryData.complexity = complexityAnalysis] *)
Definition set_complexity (complexityAnalysis : Analysis) (data : MediaQueryData)
    : MediaQueryData :=
  {| breakpoints := breakpoints data;
     mediaQueries := mediaQueries data;
     summary := summary data;
     complexity := Some complexityAnalysis |}.

Definition extractMediaQueries (origin : string) (styleSheets : list DOM.StyleSheet)
    : completion MediaQueryData * list string :=
  match evaluate origin styleSheets {| results := initial_results; console := [] |} with
  | (Normal mediaQueryData, st) =>
      let complexityAnalysis := calculateComplexity mediaQueryData in
      (Normal (set_complexity complexityAnalysis mediaQueryData), console st)
  | (Throw message, st) => (Throw message, console st)
  end.

(** ** The filter stage

    [propertyFilter] and [selectorFilter] are the values read from the
    command line: a string, or [None] when the option is absent. *)

Definition rule_matches (propertyFilter selectorFilter : option string)
    (rule : StyleRule) : bool :=
  let matchesProperty :=
    if Js.truthy_str propertyFilter
    then
      let filter := default "" propertyFilter in
      existsb (λ prop, Js.includes filter prop || Js.includes prop filter)
              (elements (dom (properties rule)))
    else negb (Js.truthy_str propertyFilter) in
  let matchesSelector :=
    if Js.truthy_str selectorFilter
    then Js.includes (default "" selectorFilter) (selector rule)
    else negb (Js.truthy_str selectorFilter) in
  matchesProperty && matchesSelector.

(** The function mapped over [data.mediaQueries]. *)
Definition filter_mediaQuery (propertyFilter selectorFilter : option string)
    (mq : MediaQuery) : MediaQuery :=
  let filteredRules :=
    filter (λ rule, rule_matches propertyFilter selectorFilter rule) (rules mq) in
  {| condition := condition mq;
     rules := filteredRules;
     breakpoint := breakpoint mq;
     type := type mq;
     matchCount := Some (Z.of_nat (length filteredRules)) |}.

Definition applyFilters (propertyFilter selectorFilter : option string)
    (data : MediaQueryData) : MediaQueryData :=
  if negb (Js.truthy_str propertyFilter) && negb (Js.truthy_str selectorFilter)
  then data
  else
    {| breakpoints := breakpoints data;
       mediaQueries :=
         filter (λ mq, 0 <? Z.of_nat (length (rules mq)))
                (filter_mediaQuery propertyFilter selectorFilter <$> mediaQueries data);
       summary := summary data;
       complexity := complexity data |}.

(** ** What [displayResults] computes before printing

    The function prints the summary and the analysis and then a breakdown by
    breakpoint.  For the breakdown it groups the records, sorts the keys of
    the groups and collects the records without a breakpoint; these three
    computations are modelled here, the lines written to the console are
    not. *)

(** The template literal [`${mq.type} ${mq.breakpoint}px`]. *)
Definition displayKey (mq : MediaQuery) : string :=
  default "null" (type mq) +:+ " " +:+
  match breakpoint mq with
  | Some n => Js.toString n
  | None => "null"
  end +:+ "px".

(** The body of the loop that fills [breakpointGroups]. *)
Definition group_for_display (breakpointGroups : list (string * list MediaQuery))
    (mq : MediaQuery) : list (string * list MediaQuery) :=
  if Js.truthy (breakpoint mq)
  then
    let key := displayKey mq in
    let breakpointGroups :=
      match Assoc.get key breakpointGroups with
      | Some _ => breakpointGroups
      | None => Assoc.set key [] breakpointGroups
      end in
    Assoc.set key (default [] (Assoc.get key breakpointGroups) ++ [mq]) breakpointGroups
  else breakpointGroups.

Definition breakpointGroups_of (data : MediaQueryData) : list (string * list MediaQuery) :=
  foldl group_for_display [] (mediaQueries data).

(** [s.match(/\d+/)]: the leftmost run of digits, [None] for [null]. *)
Fixpoint first_digits (s : string) : option string :=
  match s with
  | EmptyString => None
  | String c s' => if Js.is_digit c then Some (Js.take_digits s).1 else first_digits s'
  end.

(** [parseInt(key.match(/\d+/)[0])]; indexing [null] throws a [TypeError]. *)
Definition key_pixels (key : string) : completion Z :=
  match first_digits key with
  | Some digits => Normal (Js.parseInt digits)
  | None => Throw "Cannot read properties of null (reading '0')"
  end.

(** [keys.sort((a, b) => aVal - bVal)] where the values of the keys are
    known: a stable sort by increasing value, here by insertion. *)
Fixpoint insert_by_value (x : string * Z) (l : list (string * Z)) : list (string * Z) :=
  match l with
  | [] => [x]
  | y :: l' => if x.2 <=? y.2 then x :: l else y :: insert_by_value x l'
  end.

Definition sort_by_value (l : list (string * Z)) : list (string * Z) :=
  foldr insert_by_value [] l.

(** The values of some keys, or the exception of the first key without
    digits. *)
Fixpoint keys_pixels (keys : list string) : completion (list (string * Z)) :=
  match keys with
  | [] => Normal []
  | key :: keys' =>
      match key_pixels key with
      | Normal v =>
          match keys_pixels keys' with
          | Normal l => Normal ((key, v) :: l)
          | Throw e => Throw e
          end
      | Throw e => Throw e
      end
  end.

(** [Object.keys(breakpointGroups).sort(...)].  The comparison function is
    not called on fewer than two keys; on two or more, every key is compared
    at least once, so a key without digits makes the sort throw. *)
Definition sortedBreakpoints_of (data : MediaQueryData) : completion (list string) :=
  let keys := (breakpointGroups_of data).*1 in
  match keys with
  | [] | [_] => Normal keys
  | _ =>
      match keys_pixels keys with
      | Normal l => Normal (sort_by_value l).*1
      | Throw e => Throw e
      end
  end.

(** [data.mediaQueries.filter(mq => !mq.breakpoint)] *)
Definition otherQueries_of (data : MediaQueryData) : list MediaQuery :=
  filter (λ mq, Js.truthy (breakpoint mq) = false) (mediaQueries data).

(** ** The file name of [saveResults]

    [hostname.replace(/[^a-z0-9]/gi, '-')]: every character that is not an
    ASCII letter or digit becomes a hyphen. *)
Definition is_alnum (c : ascii) : bool :=
  let n := nat_of_ascii c in
  bool_decide ((48 ≤ n ∧ n ≤ 57) ∨ (65 ≤ n ∧ n ≤ 90) ∨ (97 ≤ n ∧ n ≤ 122))%nat.

Fixpoint hyphenate (hostname : string) : string :=
  match hostname with
  | EmptyString => EmptyString
  | String c s => String (if is_alnum c then c else "-"%char) (hyphenate s)
  end.

(** ** Notions used to state the properties *)

(** A condition with more than two [and]-joined clauses. *)
Definition more_than_two_clauses (mq : MediaQuery) : bool :=
  2 <? Z.of_nat (length (Js.split " and " (condition mq))).

(** The number of records that have more than two [and]-joined clauses or
    mention one of the media features, each record counted once. *)
Definition nested_records (mqs : list MediaQuery) : Z :=
  Z.of_nat (length (filter (λ mq, more_than_two_clauses mq || mentions_feature mq) mqs)).

(** The data of a page without media queries. *)
Definition no_mediaQueries (bps : list (string * list MediaQuery)) (mcb : list Z)
    (cx : option Analysis) : MediaQueryData :=
  {| breakpoints := bps;
     mediaQueries := [];
     summary := {| totalMediaQueries := 0;
                   uniqueBreakpoints := [];
                   mostCommonBreakpoints := mcb |};
     complexity := cx |}.

Definition zero_breakdown : Breakdown :=
  {| breakpointCount := 0;
     propertyChangesPerBreakpoint := 0;
     nestedQueries := 0;
     overlaps := 0;
     totalQueries := 0 |}.

(** A record whose condition has three clauses and names a media feature,
    and the data of a page whose only media query it is. *)
Definition landscape_tablet : MediaQuery :=
  {| condition := "screen and (min-width: 768px) and (orientation: landscape)";
     rules := [];
     breakpoint := Some 768;
     type := Some "min-width";
     matchCount := None |}.

Definition landscape_tablet_data : MediaQueryData :=
  {| breakpoints := [("min-width-768", [landscape_tablet])];
     mediaQueries := [landscape_tablet];
     summary := {| totalMediaQueries := 1;
                   uniqueBreakpoints := [768];
                   mostCommonBreakpoints := [] |};
     complexity := None |}.

(** What a computation makes of [results], and what it writes to the
    console, when started on an empty console. *)
Definition run_results {A} (m : Eval A) (r : MediaQueryData) : MediaQueryData :=
  results (m {| results := r; console := [] |}).2.

Definition run_console {A} (m : Eval A) (r : MediaQueryData) : list string :=
  console (m {| results := r; console := [] |}).2.

Definition rule_effect (rule : DOM.CSSRule) : MediaQueryData → MediaQueryData :=
  run_results (process_rule rule).

Definition sheet_effect (origin : string) (sheet : DOM.StyleSheet)
    : MediaQueryData → MediaQueryData :=
  run_results (sheet_step origin sheet).

Definition sheet_warnings (origin : string) (sheet : DOM.StyleSheet) : list string :=
  run_console (sheet_step origin sheet) initial_results.

(** The results after the walk over the sheets, before [finish]. *)
Definition walk (origin : string) (styleSheets : list DOM.StyleSheet)
    (r : MediaQueryData) : MediaQueryData :=
  foldl (λ r sheet, sheet_effect origin sheet r) r styleSheets.

(** A sheet is inaccessible when reading its rules throws. *)
Definition inaccessible (sheet : DOM.StyleSheet) : bool :=
  match (read_rules sheet {| results := initial_results; console := [] |}).1 with
  | Throw _ => true
  | Normal _ => false
  end.

(** The invariant of the data model on a record, and what holds of the
    results while the sheets are walked. *)
Definition classified (mq : MediaQuery) : Prop :=
  (breakpoint mq = None ↔ type mq = None)
  ∧ (type mq = None ∨ type mq = Some "min-width" ∨ type mq = Some "max-width").

Record consistent (r : MediaQueryData) : Prop := {
  consistent_records : Forall classified (mediaQueries r);
  consistent_NoDup : NoDup (uniqueBreakpoints (summary r));
  consistent_unique : ∀ x,
    x ∈ uniqueBreakpoints (summary r) ↔ x ∈ omap breakpoint (mediaQueries r);
  consistent_buckets : ∀ key bucket mq,
    (key, bucket) ∈ breakpoints r → mq ∈ bucket → mq ∈ mediaQueries r;
  consistent_grouped : ∀ mq,
    mq ∈ mediaQueries r → Js.truthy (breakpoint mq) = true →
    ∃ bucket, Assoc.get (breakpointKey mq) (breakpoints r) = Some bucket ∧ mq ∈ bucket;
}.

(** The distinct pixel values, and the distinct (type, value) pairs, of the
    records that carry a breakpoint. *)
Definition distinct_breakpoints (mqs : list MediaQuery) : list Z :=
  remove_dups (omap breakpoint mqs).

Definition distinct_pairs (mqs : list MediaQuery) : list (option string * Z) :=
  remove_dups (omap (λ mq, b ← breakpoint mq; Some (type mq, b)) mqs).

(** A same-origin sheet, and a sheet whose rules cannot be read. *)
Definition same_origin_sheet (rules : list DOM.CSSRule) : DOM.StyleSheet :=
  {| DOM.href := None;
     DOM.cssRules := Normal (Some rules);
     DOM.rules := Normal (Some rules) |}.

Definition unreadable_sheet : DOM.StyleSheet :=
  {| DOM.href := None;
     DOM.cssRules := Throw "Failed to read the 'cssRules' property from 'CSSStyleSheet'";
     DOM.rules := Throw "Failed to read the 'rules' property from 'CSSStyleSheet'" |}.

(** A declaration block with the given property names, all of value [v]. *)
Definition declarations (names : list string) (v : string) : DOM.CSSStyleDeclaration :=
  {| DOM.names := names; DOM.getPropertyValue := λ _, v |}.

(** A sheet with a [min-width] and a [max-width] query at 768 pixels. *)
Definition tablet_sheet : DOM.StyleSheet :=
  same_origin_sheet
    [DOM.MEDIA_RULE "(min-width: 768px)"
       [DOM.STYLE_RULE ".navbar" (declarations ["flex-direction"] "row")];
     DOM.MEDIA_RULE "(max-width: 768px)"
       [DOM.STYLE_RULE ".navbar" (declarations ["flex-direction"] "column")]].

(** A sheet with a query at 0 pixels. *)
Definition zero_sheet : DOM.StyleSheet :=
  same_origin_sheet
    [DOM.MEDIA_RULE "(min-width: 0px)"
       [DOM.STYLE_RULE ".navbar" (declarations ["display"] "flex")]].

Definition zero_record : MediaQuery :=
  {| condition := "(min-width: 0px)";
     rules := [{| selector := ".navbar"; properties := {["display" := "flex"]} |}];
     breakpoint := Some 0;
     type := Some "min-width";
     matchCount := None |}.

(** The number of declared properties of a record, and of a list of
    records: every rule of every record counts. *)
Definition sumZ (l : list Z) : Z := foldr Z.add 0 l.

Definition record_properties (mq : MediaQuery) : Z := sumZ (propCount <$> rules mq).

Definition total_properties (mqs : list MediaQuery) : Z :=
  sumZ (record_properties <$> mqs).

(** The records counted under a given key of [breakpointPropertyCounts]. *)
Definition counted_under (key : string) (mqs : list MediaQuery) : list MediaQuery :=
  filter (λ mq, countKey mq = key) mqs.

(** The records without a usable breakpoint: [mq.breakpoint] is falsy. *)
Definition unbreakpointed (mqs : list MediaQuery) : list MediaQuery :=
  filter (λ mq, Js.truthy (breakpoint mq) = false) mqs.

(** Thirty property names, and a sheet of four queries: 768 pixels as
    [min-width] and as [max-width] with one property each, 480 pixels with
    two properties, and a print query of thirty properties. *)
Definition thirty_names : list string :=
  (λ i, "--custom-" +:+ Js.toString (Z.of_nat i)) <$> seq 0 30.

Definition print_sheet : DOM.StyleSheet :=
  same_origin_sheet
    [DOM.MEDIA_RULE "(min-width: 768px)"
       [DOM.STYLE_RULE ".navbar" (declarations ["flex-direction"] "row")];
     DOM.MEDIA_RULE "(max-width: 768px)"
       [DOM.STYLE_RULE ".navbar" (declarations ["flex-direction"] "column")];
     DOM.MEDIA_RULE "(max-width: 480px)"
       [DOM.STYLE_RULE ".navbar" (declarations ["flex-direction"; "gap"] "0px")];
     DOM.MEDIA_RULE "print"
       [DOM.STYLE_RULE "body" (declarations thirty_names "initial")]].

(** ** Notions used to describe the extraction *)

(** The rules that the walk visits in a sheet: none in a foreign sheet, nor
    in a sheet whose rule list is [null] or cannot be read. *)
Definition visited_rules (origin : string) (sheet : DOM.StyleSheet) : list DOM.CSSRule :=
  if foreign origin sheet then []
  else
    match (read_rules sheet {| results := initial_results; console := [] |}).1 with
    | Normal (Some rules) => rules
    | _ => []
    end.

(** The media blocks among some rules, each with its condition text and the
    style rules nested in it. *)
Definition media_blocks (rules : list DOM.CSSRule) : list (string * list StyleRule) :=
  omap (λ rule,
          match rule with
          | DOM.MEDIA_RULE mediaText cssRules =>
              Some (mediaText, omap read_innerRule cssRules)
          | DOM.OTHER_RULE => None
          end)
       rules.

(** How the breakpoint and the type of a record follow from its condition:
    the [min-width] pattern is tried first, the [max-width] pattern only
    when it fails. *)
Definition follows_condition (mq : MediaQuery) : Prop :=
  match Js.match_px "min-width:" (condition mq) with
  | Some digits =>
      breakpoint mq = Some (Js.parseInt digits) ∧ type mq = Some "min-width"
  | None =>
      match Js.match_px "max-width:" (condition mq) with
      | Some digits =>
          breakpoint mq = Some (Js.parseInt digits) ∧ type mq = Some "max-width"
      | None => breakpoint mq = None ∧ type mq = None
      end
  end.

(** The records that belong under a key of the breakpoint map. *)
Definition grouped_under (key : string) (mqs : list MediaQuery) : list MediaQuery :=
  filter (λ mq, Js.truthy (breakpoint mq) = true ∧ breakpointKey mq = key) mqs.

(** What holds of the results while the sheets are walked, besides
    [consistent]. *)
Record traced (r : MediaQueryData) : Prop := {
  traced_total : totalMediaQueries (summary r) = Z.of_nat (length (mediaQueries r));
  traced_records :
    Forall (λ mq, follows_condition mq ∧ matchCount mq = None) (mediaQueries r);
  traced_keys : NoDup (breakpoints r).*1;
  traced_buckets : ∀ key,
    Assoc.get key (breakpoints r) =
      if decide (grouped_under key (mediaQueries r) = []) then None
      else Some (grouped_under key (mediaQueries r));
}.

(** Data with one record of two rules, for [.navbar] and for [.footer]. *)
Definition navbar_footer_data : MediaQueryData :=
  {| breakpoints := [];
     mediaQueries :=
       [{| condition := "print";
           rules := [{| selector := ".navbar"; properties := {["display" := "none"]} |};
                     {| selector := ".footer"; properties := {["margin-left" := "0px"]} |}];
           breakpoint := None;
           type := None;
           matchCount := None |}];
     summary := {| totalMediaQueries := 1;
                   uniqueBreakpoints := [];
                   mostCommonBreakpoints := [] |};
     complexity := None |}.

(** ** Notions used to describe the display and the file name *)

(** A string of decimal digits. *)
Fixpoint all_digits (s : string) : bool :=
  match s with
  | EmptyString => true
  | String c s' => Js.is_digit c && all_digits s'
  end.

(** The records shown under a key of the breakdown. *)
Definition displayed_under (key : string) (mqs : list MediaQuery) : list MediaQuery :=
  filter (λ mq, Js.truthy (breakpoint mq) = true ∧ displayKey mq = key) mqs.

(** A string of ASCII letters, digits and hyphens. *)
Fixpoint file_name_safe (s : string) : bool :=
  match s with
  | EmptyString => true
  | String c s' => (is_alnum c || bool_decide (c = "-"%char)) && file_name_safe s'
  end.

(** * Properties *)

(** ** Strings *)

Section strings.

Lemma includes_tail p c s : Js.includes p s = true → Js.includes p (String c s) = true.
Proof. intros H. cbn [Js.includes]. rewrite H. apply orb_true_r. Qed.

Lemma includes_here p s : Js.startsWith p s = true → Js.includes p s = true.
Proof. intros H. destruct s; cbn [Js.includes]; rewrite H; reflexivity. Qed.

(** A split into more than one piece has found the separator. *)
Lemma split_go_includes sep s : ∀ skip cur,
  (1 < length (Js.split_go sep skip cur s))%nat → Js.includes sep s = true.
Proof.
  induction s as [|c s IH]; intros skip cur Hlen.
  - cbn in Hlen. lia.
  - cbn [Js.split_go] in Hlen. destruct skip as [|k].
    + destruct (Js.startsWith sep (String c s)) eqn:Hsw.
      * by apply includes_here.
      * apply includes_tail. by eapply IH.
    + apply includes_tail. by eapply IH.
Qed.

Lemma split_includes sep s :
  (1 < length (Js.split sep s))%nat → Js.includes sep s = true.
Proof. apply split_go_includes. Qed.

End strings.

(** The model of the string operations on the conditions that matter. *)

Example split_three_clauses :
  Js.split " and " "screen and (min-width: 768px) and (max-width: 1024px)"
  = ["screen"; "(min-width: 768px)"; "(max-width: 1024px)"].
Proof. reflexivity. Qed.

Example split_does_not_overlap : Js.split " and " " and and " = [""; "and "].
Proof. reflexivity. Qed.

Example split_without_separator : Js.split " and " "print" = ["print"].
Proof. reflexivity. Qed.

Example match_px_min_width :
  Js.match_px "min-width:" "screen and (min-width:  768px)" = Some "768".
Proof. reflexivity. Qed.

Example match_px_other_unit : Js.match_px "min-width:" "(min-width: 48em)" = None.
Proof. reflexivity. Qed.

Example match_px_fraction : Js.match_px "max-width:" "(max-width: 767.98px)" = None.
Proof. reflexivity. Qed.

Example parseInt_leading_zero : Js.parseInt "0768" = 768.
Proof. reflexivity. Qed.

Example round_half_up :
  Js.round (Js.div (Js.of_Z 5) (Js.of_Z 2)) = 3
  ∧ Js.round (Js.div (Js.of_Z 7) (Js.of_Z 3)) = 2.
Proof. split; reflexivity. Qed.

(** ** The scorer on its own *)

Section scorer.

Lemma breakpointScore_nonneg n : 0 ≤ breakpointScore_of n.
Proof. unfold breakpointScore_of. repeat case_match; lia. Qed.

Lemma propertyScore_at_least_5 avg : 5 ≤ propertyScore_of avg.
Proof. unfold propertyScore_of. repeat case_match; lia. Qed.

Lemma nestedScore_nonneg n : 0 ≤ nestedScore_of n.
Proof. unfold nestedScore_of. repeat case_match; lia. Qed.

Lemma overlapScore_nonneg n : 0 ≤ overlapScore_of n.
Proof. unfold overlapScore_of. repeat case_match; lia. Qed.

Lemma queryCountScore_at_least_2 n : 2 ≤ queryCountScore_of n.
Proof. unfold queryCountScore_of. repeat case_match; lia. Qed.

(** The score is the sum of the five sub-scores. *)
Lemma score_sum data :
  score (calculateComplexity data) =
    let breakpointCount := Z.of_nat (length (uniqueBreakpoints (summary data))) in
    breakpointScore_of breakpointCount
    + propertyScore_of
        (avgPropertiesPerBreakpoint_of breakpointCount
           (count_properties (mediaQueries data)).1)
    + nestedScore_of (nestedOrCombinedCount_of (mediaQueries data))
    + overlapScore_of (overlapCount_of (mediaQueries data))
    + queryCountScore_of (totalMediaQueries (summary data)).
Proof.
  unfold calculateComplexity.
  destruct (count_properties (mediaQueries data)) as [total counts].
  reflexivity.
Qed.

Lemma level_of_score data :
  level (calculateComplexity data) = (level_of (score (calculateComplexity data))).1.
Proof.
  unfold calculateComplexity.
  destruct (count_properties (mediaQueries data)) as [total counts].
  reflexivity.
Qed.

Lemma breakdown_nestedQueries data :
  nestedQueries (breakdown (calculateComplexity data)) =
    nestedOrCombinedCount_of (mediaQueries data).
Proof.
  unfold calculateComplexity.
  destruct (count_properties (mediaQueries data)) as [total counts].
  reflexivity.
Qed.

Lemma breakdown_breakpointCount data :
  breakpointCount (breakdown (calculateComplexity data)) =
    Z.of_nat (length (uniqueBreakpoints (summary data))).
Proof.
  unfold calculateComplexity.
  destruct (count_properties (mediaQueries data)) as [total counts].
  reflexivity.
Qed.

End scorer.

(** ** Claims about the scorer *)

(** C1 (as the code has it).  On the data of a page without media queries
    the scorer returns score 7 (5 for the property density, 2 for the query
    volume), level Simple, a breakdown of zeros and no problem breakpoint;
    this is the analysis that the extraction attaches when the page has no
    style sheet. *)
Theorem calculateComplexity_no_mediaQueries :
  (∀ bps mcb cx,
     calculateComplexity (no_mediaQueries bps mcb cx) =
       {| score := 7;
          level := "Simple";
          recommendation := (level_of 7).2;
          breakdown := zero_breakdown;
          problemBreakpoints := [] |})
  ∧ propertyScore_of (avgPropertiesPerBreakpoint_of 0 0) = 5
  ∧ queryCountScore_of 0 = 2
  ∧ (∀ origin,
       extractMediaQueries origin [] =
         (Normal (no_mediaQueries [] []
                    (Some {| score := 7;
                             level := "Simple";
                             recommendation := (level_of 7).2;
                             breakdown := zero_breakdown;
                             problemBreakpoints := [] |})),
          [])).
Proof.
  split; [intros bps mcb cx; reflexivity|].
  split; [reflexivity|]. split; [reflexivity|].
  intros origin. reflexivity.
Qed.

(** C1 (as stated) fails: on the initial, empty results the score is not 0. *)
Lemma calculateComplexity_empty_score_not_0 :
  ¬ (score (calculateComplexity initial_results) = 0
     ∧ level (calculateComplexity initial_results) = "Simple"
     ∧ breakdown (calculateComplexity initial_results) = zero_breakdown
     ∧ problemBreakpoints (calculateComplexity initial_results) = []).
Proof. intros [Hscore _]. vm_compute in Hscore. discriminate Hscore. Qed.

(** C5.  The level returned is the one of the band that contains the
    returned score. *)
Theorem level_in_score_band data :
  let a := calculateComplexity data in
  (score a ≤ 20 ∧ level a = "Simple")
  ∨ (20 < score a ≤ 40 ∧ level a = "Moderate")
  ∨ (40 < score a ≤ 60 ∧ level a = "Complex")
  ∨ (60 < score a ≤ 80 ∧ level a = "Very Complex")
  ∨ (80 < score a ∧ level a = "Extremely Complex").
Proof.
  intros a. subst a. rewrite level_of_score.
  generalize (score (calculateComplexity data)). intros n.
  unfold level_of.
  destruct (Z.leb_spec n 20); [left; done|].
  destruct (Z.leb_spec n 40); [right; left; split; [lia|done]|].
  destruct (Z.leb_spec n 60); [right; right; left; split; [lia|done]|].
  destruct (Z.leb_spec n 80); [right; right; right; left; split; [lia|done]|].
  right; right; right; right. split; [lia|done].
Qed.

(** C9.  The property-density sub-score is at least 5, the query-volume
    sub-score at least 2, and the score of any data at least 7. *)
Theorem score_at_least_7 :
  (∀ avg, 5 ≤ propertyScore_of avg)
  ∧ (∀ totalQueries, 2 ≤ queryCountScore_of totalQueries)
  ∧ (∀ data, 7 ≤ score (calculateComplexity data)).
Proof.
  split; [apply propertyScore_at_least_5|].
  split; [apply queryCountScore_at_least_2|].
  intros data. rewrite score_sum. cbv zeta.
  pose proof (breakpointScore_nonneg (Z.of_nat (length (uniqueBreakpoints (summary data))))).
  pose proof (propertyScore_at_least_5
    (avgPropertiesPerBreakpoint_of (Z.of_nat (length (uniqueBreakpoints (summary data))))
       (count_properties (mediaQueries data)).1)).
  pose proof (nestedScore_nonneg (nestedOrCombinedCount_of (mediaQueries data))).
  pose proof (overlapScore_nonneg (overlapCount_of (mediaQueries data))).
  pose proof (queryCountScore_at_least_2 (totalMediaQueries (summary data))).
  lia.
Qed.

(** *** Nested and combined queries *)

Lemma combined_more_than_two_clauses mq : combined mq = more_than_two_clauses mq.
Proof.
  unfold combined, more_than_two_clauses.
  destruct (2 <? _) eqn:Hlen; [|apply andb_false_r].
  rewrite andb_true_r. apply split_includes.
  apply Z.ltb_lt in Hlen. lia.
Qed.

Lemma foldl_count_nested mqs : ∀ n,
  foldl count_nested n mqs =
    n + Z.of_nat (length (filter (λ mq, more_than_two_clauses mq) mqs))
      + Z.of_nat (length (filter (λ mq, mentions_feature mq) mqs)).
Proof.
  induction mqs as [|mq mqs IH]; intros n; [cbn; lia|].
  cbn [foldl]. rewrite IH. unfold count_nested.
  rewrite combined_more_than_two_clauses, !filter_cons.
  destruct (more_than_two_clauses mq), (mentions_feature mq); cbn;
    repeat case_decide; try done; cbn; lia.
Qed.

(** C3 (as the code has it).  [nestedQueries] is the number of records with
    more than two [and]-joined clauses plus the number of records that name
    one of the media features: a record of both kinds counts twice. *)
Theorem nestedQueries_counts_each_check data :
  nestedQueries (breakdown (calculateComplexity data)) =
    Z.of_nat (length (filter (λ mq, more_than_two_clauses mq) (mediaQueries data)))
    + Z.of_nat (length (filter (λ mq, mentions_feature mq) (mediaQueries data))).
Proof.
  rewrite breakdown_nestedQueries. unfold nestedOrCombinedCount_of.
  rewrite foldl_count_nested. lia.
Qed.

(** C3 (as stated) fails: a single record with three clauses, one of them
    an orientation, gives [nestedQueries = 2], not 1. *)
Lemma nestedQueries_counts_a_record_twice :
  nested_records (mediaQueries landscape_tablet_data) = 1
  ∧ nestedQueries (breakdown (calculateComplexity landscape_tablet_data)) = 2
  ∧ nestedQueries (breakdown (calculateComplexity landscape_tablet_data))
    ≠ nested_records (mediaQueries landscape_tablet_data).
Proof. vm_compute. repeat split; discriminate. Qed.

(** ** The filter stage *)

Section filters.
Variables propertyFilter selectorFilter : option string.

Let keep (rule : StyleRule) : Prop := rule_matches propertyFilter selectorFilter rule.
Let nonempty (mq : MediaQuery) : Prop := 0 <? Z.of_nat (length (rules mq)).

Lemma filter_twice {A} (P : A → Prop) `{∀ x, Decision (P x)} (l : list A) :
  filter P (filter P l) = filter P l.
Proof.
  induction l as [|x l IH]; [done|].
  rewrite filter_cons. case_decide as HP; [|done].
  rewrite filter_cons. case_decide; [|done]. by rewrite IH.
Qed.

(** Filtering the rules of a record again changes nothing. *)
Lemma filter_mediaQuery_twice mq :
  filter_mediaQuery propertyFilter selectorFilter
    (filter_mediaQuery propertyFilter selectorFilter mq)
  = filter_mediaQuery propertyFilter selectorFilter mq.
Proof.
  unfold filter_mediaQuery. cbn [rules condition breakpoint type].
  by rewrite filter_twice.
Qed.

Lemma filter_records_twice (mqs : list MediaQuery) :
  filter nonempty
    (filter_mediaQuery propertyFilter selectorFilter <$>
       filter nonempty (filter_mediaQuery propertyFilter selectorFilter <$> mqs))
  = filter nonempty (filter_mediaQuery propertyFilter selectorFilter <$> mqs).
Proof.
  induction mqs as [|mq mqs IH]; [done|].
  rewrite fmap_cons, filter_cons. case_decide as Hne; [|done].
  rewrite fmap_cons, filter_mediaQuery_twice, filter_cons.
  case_decide; [|done]. by rewrite IH.
Qed.

End filters.

(** C6.  Filtering twice with the same property and selector filters, each
    a string or absent, gives what filtering once gives. *)
Theorem applyFilters_idempotent (propertyFilter selectorFilter : option string)
    (data : MediaQueryData) :
  applyFilters propertyFilter selectorFilter
    (applyFilters propertyFilter selectorFilter data)
  = applyFilters propertyFilter selectorFilter data.
Proof.
  unfold applyFilters.
  destruct (negb (Js.truthy_str propertyFilter) && negb (Js.truthy_str selectorFilter));
    [done|].
  cbn [mediaQueries breakpoints summary complexity].
  by rewrite filter_records_twice.
Qed.

(** ** Association lists *)

Section assoc_facts.
Context {V : Type}.

Lemma Assoc_get_elem_of k (v : V) m : Assoc.get k m = Some v → (k, v) ∈ m.
Proof.
  induction m as [|[k' v'] m IH]; cbn; [done|].
  case_decide as Hk.
  - intros [= ->]. subst k'. apply list_elem_of_here.
  - intros Hget. apply list_elem_of_further. by apply IH.
Qed.

Lemma Assoc_set_elem_of k (v : V) m k' v' :
  (k', v') ∈ Assoc.set k v m → (k', v') = (k, v) ∨ (k', v') ∈ m.
Proof.
  induction m as [|[k0 v0] m IH]; cbn.
  - intros ->%list_elem_of_singleton. by left.
  - case_decide as Hk.
    + intros [->|Hin]%elem_of_cons; [by left|right]. by apply list_elem_of_further.
    + intros [->|Hin]%elem_of_cons; [right; apply list_elem_of_here|].
      destruct (IH Hin) as [->|Hm]; [by left|right]. by apply list_elem_of_further.
Qed.

Lemma Assoc_get_set k k' (v : V) m :
  Assoc.get k' (Assoc.set k v m) = if decide (k' = k) then Some v else Assoc.get k' m.
Proof.
  induction m as [|[k0 v0] m IH]; cbn.
  - by repeat case_decide.
  - destruct (decide (k = k0)) as [->|Hk]; cbn.
    + by repeat case_decide.
    + rewrite IH. repeat case_decide; congruence.
Qed.

Lemma Assoc_set_keys k (v : V) m k' :
  k' ∈ (Assoc.set k v m).*1 → k' = k ∨ k' ∈ m.*1.
Proof.
  intros [[k1 v1] [-> Hin]]%list_elem_of_fmap.
  apply Assoc_set_elem_of in Hin as [Heq|Hin].
  - injection Heq as -> _. by left.
  - right. apply list_elem_of_fmap. by exists (k1, v1).
Qed.

Lemma Assoc_set_NoDup k (v : V) m : NoDup m.*1 → NoDup (Assoc.set k v m).*1.
Proof.
  induction m as [|[k0 v0] m IH]; cbn; intros Hnd.
  - apply NoDup_singleton.
  - apply NoDup_cons in Hnd as [Hk0 Hnd]. case_decide as Hk; cbn.
    + subst k0. by apply NoDup_cons.
    + apply NoDup_cons. split; [|by apply IH].
      intros [->|Hin]%Assoc_set_keys; done.
Qed.

Lemma Assoc_elem_of_get k (v : V) m :
  NoDup m.*1 → (k, v) ∈ m → Assoc.get k m = Some v.
Proof.
  induction m as [|[k0 v0] m IH]; cbn; intros Hnd Hin.
  - by apply elem_of_nil in Hin.
  - apply NoDup_cons in Hnd as [Hk0 Hnd].
    apply elem_of_cons in Hin as [Heq|Hin].
    + injection Heq as -> ->. by case_decide.
    + case_decide as Hk; [|by apply IH]. subst k0. destruct Hk0.
      apply list_elem_of_fmap. by exists (k, v).
Qed.

End assoc_facts.

(** ** The walk over the style sheets *)

(** Unfolds the operations of [Eval] on a given state. *)
Ltac run_eval :=
  unfold mbind, mret, Eval_bind, Eval_ret, update, console_warn, read,
    get_results, try_catch; cbn.

Section walk.

Lemma elem_of_Set_add x b (s : list Z) : x ∈ Set_add b s ↔ x = b ∨ x ∈ s.
Proof.
  unfold Set_add. destruct (decide (b ∈ s)) as [Hb|Hb].
  - split; [auto|]. by intros [->|Hx].
  - rewrite elem_of_app, list_elem_of_singleton. tauto.
Qed.

Lemma NoDup_Set_add b (s : list Z) : NoDup s → NoDup (Set_add b s).
Proof.
  intros Hs. unfold Set_add. destruct (decide (b ∈ s)) as [Hb|Hb]; [done|].
  apply NoDup_app. split_and!; [done| |apply NoDup_singleton].
  intros x Hx ->%list_elem_of_singleton. done.
Qed.

(** A rule never throws and leaves the console alone. *)
Lemma process_rule_run rule st :
  process_rule rule st =
    (Normal tt, {| results := rule_effect rule (results st); console := console st |}).
Proof.
  destruct st as [r c]. unfold rule_effect, run_results, process_rule.
  destruct rule as [mediaText inner|]; [|done].
  destruct (Js.match_px "min-width:" mediaText) as [dmin|];
    [|destruct (Js.match_px "max-width:" mediaText) as [dmax|]].
  - run_eval. destruct (Js.parseInt dmin =? 0); done.
  - run_eval. destruct (Js.parseInt dmax =? 0); done.
  - done.
Qed.

Lemma for_of_rules_run rules : ∀ st,
  for_of rules process_rule st =
    (Normal tt, {| results := foldl (λ r rule, rule_effect rule r) (results st) rules;
                   console := console st |}).
Proof.
  induction rules as [|rule rules IH]; intros st; [by destruct st|].
  cbn [for_of foldl]. unfold mbind, Eval_bind at 1.
  rewrite process_rule_run, IH. done.
Qed.

(** The rules a sheet gives access to, as [read_rules] finds them. *)
Lemma read_rules_run sheet st :
  read_rules sheet st =
    (match DOM.cssRules sheet with
     | Normal (Some l) => Normal (Some l)
     | Normal None => DOM.rules sheet
     | Throw e => Throw e
     end, st).
Proof.
  unfold read_rules. run_eval.
  destruct (DOM.cssRules sheet) as [[l|]|e]; done.
Qed.

(** The body of the sheet loop never throws; what it does to [results]
    does not depend on the console, and it only appends to the console. *)
Lemma sheet_step_run origin sheet st :
  sheet_step origin sheet st =
    (Normal tt, {| results := sheet_effect origin sheet (results st);
                   console := console st ++ sheet_warnings origin sheet |}).
Proof.
  destruct st as [r c].
  unfold sheet_warnings, sheet_effect, run_console, run_results, sheet_step,
    process_sheet, try_catch.
  destruct (foreign origin sheet); [by rewrite app_nil_r|].
  unfold mbind, Eval_bind. rewrite !read_rules_run.
  destruct (DOM.cssRules sheet) as [[l|]|e]; [| |done].
  - rewrite !for_of_rules_run. cbn. by rewrite app_nil_r.
  - destruct (DOM.rules sheet) as [[l|]|e]; [| |done].
    + rewrite !for_of_rules_run. cbn. by rewrite app_nil_r.
    + cbn. by rewrite app_nil_r.
Qed.

Lemma for_of_sheets_run origin sheets : ∀ st,
  for_of sheets (sheet_step origin) st =
    (Normal tt, {| results := walk origin sheets (results st);
                   console := console st ++ sheets ≫= sheet_warnings origin |}).
Proof.
  induction sheets as [|sheet sheets IH]; intros st.
  - destruct st. cbn. by rewrite app_nil_r.
  - cbn [for_of]. unfold mbind at 1, Eval_bind at 1.
    rewrite sheet_step_run, IH. cbn. by rewrite app_assoc.
Qed.

(** [extractMediaQueries] always completes normally, with the analysis of
    the finished walk attached. *)
Lemma extractMediaQueries_run origin sheets :
  extractMediaQueries origin sheets =
    let data := finish (walk origin sheets initial_results) in
    (Normal (set_complexity (calculateComplexity data) data),
     sheets ≫= sheet_warnings origin).
Proof.
  unfold extractMediaQueries, evaluate.
  unfold mbind at 1, Eval_bind at 1. rewrite for_of_sheets_run. done.
Qed.

(** *** What a sheet contributes *)

Lemma sheet_effect_foreign origin sheet r :
  foreign origin sheet = true → sheet_effect origin sheet r = r.
Proof.
  intros Hf. unfold sheet_effect, run_results, sheet_step, process_sheet, try_catch.
  by rewrite Hf.
Qed.


(** A sheet leaves [results] unchanged or runs its rules in order. *)
Lemma sheet_effect_cases origin sheet r :
  sheet_effect origin sheet r = r
  ∨ ∃ rules, sheet_effect origin sheet r = foldl (λ r rule, rule_effect rule r) r rules.
Proof.
  unfold sheet_effect, run_results, sheet_step, process_sheet, try_catch.
  destruct (foreign origin sheet); [by left|].
  unfold mbind, Eval_bind. rewrite !read_rules_run.
  destruct (DOM.cssRules sheet) as [[l|]|e]; [|  |by left].
  - right. exists l. by rewrite for_of_rules_run.
  - destruct (DOM.rules sheet) as [[l|]|e]; [|by left|by left].
    right. exists l. by rewrite for_of_rules_run.
Qed.

End walk.

(** ** Invariants of the extraction *)

Section invariants.

(** The record that a media rule appends. *)
Lemma rule_effect_media mediaText inner r :
  ∃ mq,
    classified mq
    ∧ condition mq = mediaText
    ∧ mediaQueries (rule_effect (DOM.MEDIA_RULE mediaText inner) r) = mediaQueries r ++ [mq]
    ∧ uniqueBreakpoints (summary (rule_effect (DOM.MEDIA_RULE mediaText inner) r)) =
        from_option (λ b, Set_add b (uniqueBreakpoints (summary r)))
                    (uniqueBreakpoints (summary r)) (breakpoint mq)
    ∧ breakpoints (rule_effect (DOM.MEDIA_RULE mediaText inner) r) =
        if Js.truthy (breakpoint mq) then breakpoints (group_by_breakpoint mq r)
        else breakpoints r.
Proof.
  unfold rule_effect, run_results, process_rule.
  destruct (Js.match_px "min-width:" mediaText) as [dmin|];
    [|destruct (Js.match_px "max-width:" mediaText) as [dmax|]]; run_eval.
  - exists {| condition := mediaText; rules := omap read_innerRule inner;
              breakpoint := Some (Js.parseInt dmin); type := Some "min-width";
              matchCount := None |}.
    destruct (Js.parseInt dmin =? 0) eqn:Hzero; cbn; rewrite ?Hzero;
      (split_and!; [split; [done|right; by left]|done|done|done|done]).
  - exists {| condition := mediaText; rules := omap read_innerRule inner;
              breakpoint := Some (Js.parseInt dmax); type := Some "max-width";
              matchCount := None |}.
    destruct (Js.parseInt dmax =? 0) eqn:Hzero; cbn; rewrite ?Hzero;
      (split_and!; [split; [done|right; by right]|done|done|done|done]).
  - exists {| condition := mediaText; rules := omap read_innerRule inner;
              breakpoint := None; type := None; matchCount := None |}.
    split_and!; [split; [done|by left]|done|done|done|done].
Qed.

Lemma group_by_breakpoint_get mq r k :
  Assoc.get k (breakpoints (group_by_breakpoint mq r)) =
    if decide (k = breakpointKey mq)
    then Some (default [] (Assoc.get k (breakpoints r)) ++ [mq])
    else Assoc.get k (breakpoints r).
Proof.
  unfold group_by_breakpoint. cbn [breakpoints]. rewrite Assoc_get_set.
  case_decide as Hk.
  - subst k. destruct (Assoc.get (breakpointKey mq) (breakpoints r)) eqn:Hget.
    + by rewrite Hget.
    + rewrite Assoc_get_set. by rewrite decide_True.
  - destruct (Assoc.get (breakpointKey mq) (breakpoints r)); [done|].
    rewrite Assoc_get_set. by rewrite decide_False.
Qed.

Lemma group_by_breakpoint_buckets mq r key bucket x :
  (key, bucket) ∈ breakpoints (group_by_breakpoint mq r) → x ∈ bucket →
  x = mq ∨ ∃ bucket', (key, bucket') ∈ breakpoints r ∧ x ∈ bucket'.
Proof.
  unfold group_by_breakpoint. cbn [breakpoints].
  intros Hin Hx. apply Assoc_set_elem_of in Hin as [Heq|Hin].
  - injection Heq as Hk Hb. subst key bucket.
    apply elem_of_app in Hx as [Hx|Hx%list_elem_of_singleton]; [|by left]. right.
    destruct (Assoc.get (breakpointKey mq) (breakpoints r)) as [old|] eqn:Hget.
    + rewrite Hget in Hx. cbn in Hx. exists old. split; [|done].
      by apply Assoc_get_elem_of.
    + destruct (Assoc.get _ (Assoc.set _ _ _)) as [new|] eqn:Hnew;
        [|by apply elem_of_nil in Hx].
      cbn in Hx. apply Assoc_get_elem_of, Assoc_set_elem_of in Hnew as [Heq|Hnew].
      * injection Heq as ->. by apply elem_of_nil in Hx.
      * by exists new.
  - right. exists bucket. split; [|done].
    destruct (Assoc.get (breakpointKey mq) (breakpoints r)); [done|].
    apply Assoc_set_elem_of in Hin as [Heq|Hin]; [|done].
    injection Heq as -> ->. by apply elem_of_nil in Hx.
Qed.

Lemma rule_effect_consistent rule r : consistent r → consistent (rule_effect rule r).
Proof.
  intros [Hrec Hnd Huniq Hbuck Hgrp]. destruct rule as [mediaText inner|]; [|by split].
  destruct (rule_effect_media mediaText inner r)
    as (mq & Hmq & _ & Hmqs & Hu & Hb).
  split.
  - rewrite Hmqs. apply Forall_app. split; [done|]. by apply Forall_singleton.
  - rewrite Hu. destruct (breakpoint mq); cbn; [by apply NoDup_Set_add|done].
  - intros x. rewrite Hu, Hmqs, omap_app, elem_of_app. cbn.
    destruct (breakpoint mq) as [b|]; cbn.
    + rewrite elem_of_Set_add, list_elem_of_singleton, Huniq. tauto.
    + rewrite Huniq, elem_of_nil. tauto.
  - intros key bucket x Hin Hx. rewrite Hmqs, elem_of_app, list_elem_of_singleton.
    rewrite Hb in Hin. destruct (Js.truthy (breakpoint mq)).
    + destruct (group_by_breakpoint_buckets _ _ _ _ _ Hin Hx) as [->|(b' & Hin' & Hx')];
        [by right|left]. by eapply Hbuck.
    + left. by eapply Hbuck.
  - intros x. rewrite Hmqs, elem_of_app, list_elem_of_singleton, Hb.
    intros [Hx| ->] Htruthy.
    + destruct (Hgrp x Hx Htruthy) as (bucket & Hget & Hin).
      destruct (Js.truthy (breakpoint mq)); [|by exists bucket].
      rewrite group_by_breakpoint_get. case_decide.
      * eexists. split; [done|]. rewrite Hget. cbn. apply elem_of_app. by left.
      * by exists bucket.
    + rewrite Htruthy, group_by_breakpoint_get, decide_True by done.
      eexists. split; [done|]. apply elem_of_app. right. by apply list_elem_of_singleton.
Qed.

Lemma sheet_effect_consistent origin sheet r :
  consistent r → consistent (sheet_effect origin sheet r).
Proof.
  intros Hr. destruct (sheet_effect_cases origin sheet r) as [->|[rules ->]]; [done|].
  revert r Hr. induction rules as [|rule rules IH]; intros r Hr; [done|].
  cbn [foldl]. by apply IH, rule_effect_consistent.
Qed.

Lemma walk_consistent origin sheets r : consistent r → consistent (walk origin sheets r).
Proof.
  revert r. induction sheets as [|sheet sheets IH]; intros r Hr; [done|].
  unfold walk. cbn [foldl]. by apply IH, sheet_effect_consistent.
Qed.

Lemma initial_results_consistent : consistent initial_results.
Proof.
  split; cbn.
  - constructor.
  - constructor.
  - done.
  - intros key bucket mq Hin. by apply elem_of_nil in Hin.
  - intros mq Hin. by apply elem_of_nil in Hin.
Qed.

(** Sorting the set of breakpoints keeps its size: the number of distinct
    pixel values among the records. *)
Lemma finish_uniqueBreakpoints_length r :
  consistent r →
  length (uniqueBreakpoints (summary (finish r))) =
    length (distinct_breakpoints (mediaQueries (finish r))).
Proof.
  intros [_ Hnd Huniq _ _]. cbn. rewrite merge_sort_Permutation.
  apply Permutation_length, NoDup_Permutation; [done|apply NoDup_remove_dups|].
  intros x. unfold distinct_breakpoints. by rewrite elem_of_remove_dups.
Qed.

End invariants.

(** ** Claims about the extraction *)

(** C7.  Every record that the extraction produces, in the flat list and in
    the buckets of the breakpoint map, has a null breakpoint exactly when
    its type is null, and its type is null, "min-width" or "max-width". *)
Theorem extracted_records_classified origin sheets :
  ∃ data w,
    extractMediaQueries origin sheets = (Normal data, w)
    ∧ Forall (λ mq, (breakpoint mq = None ↔ type mq = None)
                    ∧ (type mq = None
                       ∨ type mq = Some "min-width"
                       ∨ type mq = Some "max-width"))
             (mediaQueries data)
    ∧ ∀ key bucket mq,
        (key, bucket) ∈ breakpoints data → mq ∈ bucket →
        (breakpoint mq = None ↔ type mq = None)
        ∧ (type mq = None ∨ type mq = Some "min-width" ∨ type mq = Some "max-width").
Proof.
  rewrite extractMediaQueries_run. cbv zeta. eexists _, _. split; [reflexivity|].
  destruct (walk_consistent origin sheets _ initial_results_consistent)
    as [Hrec _ _ Hbuck _].
  split; [exact Hrec|]. cbn. intros key bucket mq Hin Hmq.
  rewrite Forall_forall in Hrec. eapply Hrec, Hbuck; done.
Qed.

(** C2 (as the code has it).  The [breakpointCount] of the analysis that the
    extraction attaches, which is also the metric of the breakpoint-count
    sub-score, is the number of distinct breakpoint pixel values among the
    records. *)
Theorem breakpointCount_counts_pixel_values origin sheets :
  ∃ data w a,
    extractMediaQueries origin sheets = (Normal data, w)
    ∧ complexity data = Some a
    ∧ breakpointCount (breakdown a) =
        Z.of_nat (length (distinct_breakpoints (mediaQueries data)))
    ∧ score a =
        breakpointScore_of (Z.of_nat (length (distinct_breakpoints (mediaQueries data))))
        + propertyScore_of
            (avgPropertiesPerBreakpoint_of
               (Z.of_nat (length (distinct_breakpoints (mediaQueries data))))
               (count_properties (mediaQueries data)).1)
        + nestedScore_of (nestedOrCombinedCount_of (mediaQueries data))
        + overlapScore_of (overlapCount_of (mediaQueries data))
        + queryCountScore_of (totalMediaQueries (summary data)).
Proof.
  rewrite extractMediaQueries_run. cbv zeta. eexists _, _, _.
  split; [reflexivity|]. split; [reflexivity|].
  pose proof (finish_uniqueBreakpoints_length _
    (walk_consistent origin sheets _ initial_results_consistent)) as Hlen.
  split.
  - rewrite breakdown_breakpointCount. cbn [set_complexity mediaQueries].
    by rewrite Hlen.
  - rewrite score_sum. cbv zeta. cbn [set_complexity mediaQueries summary].
    by rewrite Hlen.
Qed.

(** C2 (as stated) fails: a [min-width] and a [max-width] record at the same
    768 pixels are two distinct (type, breakpoint) pairs, and count for one. *)
Lemma breakpointCount_ignores_the_type :
  ∃ data w a,
    extractMediaQueries "https://example.com" [tablet_sheet] = (Normal data, w)
    ∧ complexity data = Some a
    ∧ Z.of_nat (length (distinct_pairs (mediaQueries data))) = 2
    ∧ breakpointCount (breakdown a) = 1
    ∧ breakpointCount (breakdown a)
      ≠ Z.of_nat (length (distinct_pairs (mediaQueries data))).
Proof.
  rewrite extractMediaQueries_run. cbv zeta. eexists _, _, _.
  split; [reflexivity|]. split; [reflexivity|].
  vm_compute. repeat split; discriminate.
Qed.

(** C4, at the input where the code departs from it.  The query
    [(min-width: 0px)] yields a record with breakpoint 0 and type
    "min-width", and 0 is recorded among the unique breakpoints, but the
    breakpoint map gets no bucket "min-width-0": it stays empty. *)
Theorem zero_breakpoint_is_not_grouped :
  ∃ data w,
    extractMediaQueries "https://example.com" [zero_sheet] = (Normal data, w)
    ∧ mediaQueries data = [zero_record]
    ∧ breakpoint zero_record = Some 0
    ∧ breakpointKey zero_record = "min-width-0"
    ∧ uniqueBreakpoints (summary data) = [0]
    ∧ Assoc.get "min-width-0" (breakpoints data) = None
    ∧ breakpoints data = [].
Proof.
  rewrite extractMediaQueries_run. cbv zeta. eexists _, _.
  split; [reflexivity|]. vm_compute. repeat split.
Qed.

(** What the grouping does achieve: every record whose breakpoint is a
    non-zero number is in the bucket of its key. *)
Lemma nonzero_breakpoints_are_grouped origin sheets :
  ∃ data w,
    extractMediaQueries origin sheets = (Normal data, w)
    ∧ ∀ mq b,
        mq ∈ mediaQueries data → breakpoint mq = Some b → b ≠ 0 →
        ∃ bucket,
          Assoc.get (breakpointKey mq) (breakpoints data) = Some bucket ∧ mq ∈ bucket.
Proof.
  rewrite extractMediaQueries_run. cbv zeta. eexists _, _. split; [reflexivity|].
  destruct (walk_consistent origin sheets _ initial_results_consistent)
    as [_ _ _ _ Hgrp].
  cbn. intros mq b Hin Hb Hne. apply Hgrp; [done|].
  rewrite Hb. cbn. by apply negb_true_iff, Z.eqb_neq.
Qed.

(** *** Inaccessible sheets *)


Lemma sheet_warnings_cases origin sheet :
  if foreign origin sheet then sheet_warnings origin sheet = []
  else if inaccessible sheet then ∃ line, sheet_warnings origin sheet = [line]
  else sheet_warnings origin sheet = [].
Proof.
  unfold inaccessible, sheet_warnings, run_console, sheet_step, process_sheet, try_catch.
  destruct (foreign origin sheet); [done|].
  unfold mbind, Eval_bind. rewrite !read_rules_run. cbn.
  destruct (DOM.cssRules sheet) as [[l|]|e]; [|  |by eexists].
  - by rewrite for_of_rules_run.
  - destruct (DOM.rules sheet) as [[l|]|e]; [|done|by eexists].
    by rewrite for_of_rules_run.
Qed.



(** A readable sheet followed by an unreadable one: the result is that of
    the first sheet alone, and the console holds one warning. *)
Example second_sheet_unreadable :
  extractMediaQueries "https://example.com" [tablet_sheet; unreadable_sheet] =
    ((extractMediaQueries "https://example.com" [tablet_sheet]).1,
     ["Could not access stylesheet: Failed to read the 'cssRules' property from 'CSSStyleSheet'"]).
Proof. by rewrite !extractMediaQueries_run. Qed.


(** ** The per-breakpoint property counts *)

Section counts.

(** The inner loop, over the rules of one record, when the counter of
    [key] exists. *)
Lemma foldl_count_rule key rules : ∀ total counts n,
  Assoc.get key counts = Some n →
  NoDup counts.*1 →
  let c := foldl (count_rule key) (total, counts) rules in
  c.1 = total + sumZ (propCount <$> rules)
  ∧ Assoc.get key c.2 = Some (n + sumZ (propCount <$> rules))
  ∧ (∀ k, k ≠ key → Assoc.get k c.2 = Assoc.get k counts)
  ∧ NoDup c.2.*1.
Proof.
  induction rules as [|rule rules IH]; intros total counts n Hget Hnd; cbn.
  - split_and!; [lia|by rewrite Z.add_0_r|done|done].
  - edestruct (IH (total + propCount rule)
                  (Assoc.set key (default 0 (Assoc.get key counts) + propCount rule) counts)
                  (n + propCount rule)) as (Ht & Hk & Hother & Hnd').
    + rewrite Assoc_get_set, Hget. by case_decide.
    + by apply Assoc_set_NoDup.
    + fold (sumZ (propCount <$> rules)).
      split_and!; [rewrite Ht; lia|rewrite Hk; f_equal; lia| |done].
      intros k Hne. rewrite (Hother k Hne), Assoc_get_set. by case_decide.
Qed.

(** One step of the outer loop. *)
Lemma count_mediaQuery_spec total counts mq :
  NoDup counts.*1 →
  let c := count_mediaQuery (total, counts) mq in
  c.1 = total + record_properties mq
  ∧ Assoc.get (countKey mq) c.2 =
      Some (default 0 (Assoc.get (countKey mq) counts) + record_properties mq)
  ∧ (∀ k, k ≠ countKey mq → Assoc.get k c.2 = Assoc.get k counts)
  ∧ NoDup c.2.*1.
Proof.
  intros Hnd. unfold count_mediaQuery, record_properties.
  set (key := countKey mq).
  set (counts0 := match Assoc.get key counts with
                  | Some n => if n =? 0 then Assoc.set key 0 counts else counts
                  | None => Assoc.set key 0 counts
                  end).
  assert (Assoc.get key counts0 = Some (default 0 (Assoc.get key counts))
          ∧ (∀ k, k ≠ key → Assoc.get k counts0 = Assoc.get k counts)
          ∧ NoDup counts0.*1) as (Hget0 & Hother0 & Hnd0).
  { subst counts0. destruct (Assoc.get key counts) as [n|] eqn:Hget.
    - destruct (Z.eqb_spec n 0) as [->|Hn].
      + split_and!; [rewrite Assoc_get_set; by case_decide| |by apply Assoc_set_NoDup].
        intros k Hne. rewrite Assoc_get_set. by case_decide.
      + done.
    - split_and!; [rewrite Assoc_get_set; by case_decide| |by apply Assoc_set_NoDup].
      intros k Hne. rewrite Assoc_get_set. by case_decide. }
  destruct (foldl_count_rule key (rules mq) total counts0 _ Hget0 Hnd0)
    as (Ht & Hk & Hother & Hnd').
  split_and!; [done|done| |done].
  intros k Hne. by rewrite (Hother k Hne), Hother0.
Qed.

Lemma total_properties_cons mq mqs :
  total_properties (mq :: mqs) = record_properties mq + total_properties mqs.
Proof. reflexivity. Qed.

Lemma foldl_count_mediaQuery mqs : ∀ total counts,
  NoDup counts.*1 →
  let c := foldl count_mediaQuery (total, counts) mqs in
  c.1 = total + total_properties mqs
  ∧ (∀ k, Assoc.get k c.2 =
          if decide (counted_under k mqs = []) then Assoc.get k counts
          else Some (default 0 (Assoc.get k counts)
                     + total_properties (counted_under k mqs)))
  ∧ NoDup c.2.*1.
Proof.
  induction mqs as [|mq mqs IH]; intros total counts Hnd.
  - cbn. split_and!; [lia|done|done].
  - cbn [foldl].
    destruct (count_mediaQuery_spec total counts mq Hnd) as (Ht & Hk & Hother & Hnd').
    destruct (count_mediaQuery (total, counts) mq) as [total' counts'].
    cbn [fst snd] in *.
    destruct (IH total' counts' Hnd') as (IHt & IHk & IHnd).
    split_and!; [|  |done].
    + rewrite IHt, Ht, total_properties_cons. lia.
    + intros k. rewrite IHk. unfold counted_under. rewrite filter_cons.
      destruct (decide (countKey mq = k)) as [<-|Hne].
      * rewrite Hk. case_decide as Hrest.
        -- rewrite decide_False by done. rewrite Hrest, total_properties_cons.
           cbn. f_equal. lia.
        -- rewrite decide_False by done. rewrite total_properties_cons.
           cbn. f_equal. lia.
      * by rewrite Hother.
Qed.

(** The counters after the first loop of the scorer: the total over all
    records, and under each key the total of the records counted there. *)
Lemma count_properties_spec mqs :
  (count_properties mqs).1 = total_properties mqs
  ∧ (∀ k c, (k, c) ∈ (count_properties mqs).2 ↔
            counted_under k mqs ≠ [] ∧ c = total_properties (counted_under k mqs)).
Proof.
  destruct (foldl_count_mediaQuery mqs 0 [] (NoDup_nil_2 (A:=string))) as (Ht & Hk & Hnd).
  fold (count_properties mqs) in Ht, Hk, Hnd. cbv zeta in Ht, Hk, Hnd.
  split; [rewrite Ht; lia|].
  intros k c. split.
  - intros Hin%(Assoc_elem_of_get _ _ _ Hnd). rewrite Hk in Hin.
    case_decide; [done|]. cbn in Hin. injection Hin as <-. split; [done|lia].
  - intros [Hne ->]. apply Assoc_get_elem_of. rewrite Hk.
    rewrite decide_False by done. cbn. f_equal.
Qed.

End counts.

(** ** The bucket of the records without a breakpoint *)

Section other.

Lemma breakdown_propertyChanges data :
  propertyChangesPerBreakpoint (breakdown (calculateComplexity data)) =
    Js.round (avgPropertiesPerBreakpoint_of
                (Z.of_nat (length (uniqueBreakpoints (summary data))))
                (count_properties (mediaQueries data)).1).
Proof.
  unfold calculateComplexity.
  destruct (count_properties (mediaQueries data)) as [total counts].
  reflexivity.
Qed.

Lemma problemBreakpoints_calc data :
  problemBreakpoints (calculateComplexity data) =
    problemBreakpoints_of
      (avgPropertiesPerBreakpoint_of
         (Z.of_nat (length (uniqueBreakpoints (summary data))))
         (count_properties (mediaQueries data)).1)
      (count_properties (mediaQueries data)).2.
Proof.
  unfold calculateComplexity.
  destruct (count_properties (mediaQueries data)) as [total counts].
  reflexivity.
Qed.

Lemma elem_of_problemBreakpoints_of avg counts key c :
  {| Problem.breakpoint := key; Problem.propertyCount := c;
     Problem.reason := problem_reason |} ∈ problemBreakpoints_of avg counts
  ↔ (key, c) ∈ counts ∧ is_problem avg c = true.
Proof.
  unfold problemBreakpoints_of. rewrite list_elem_of_omap. split.
  - intros ([k n] & Hin & Hsome). destruct (is_problem avg n) eqn:Hp; [|done].
    injection Hsome as -> ->. done.
  - intros [Hin Hp]. exists (key, c). by rewrite Hp.
Qed.

(** The key of a classified record is "other" exactly when its breakpoint
    is falsy: the other keys start with the type, or with "null". *)
Lemma classified_countKey mq :
  classified mq → countKey mq = "other" ↔ Js.truthy (breakpoint mq) = false.
Proof.
  intros [_ Htype]. unfold countKey, breakpointKey.
  destruct (Js.truthy (breakpoint mq)); [|done].
  destruct Htype as [->|[->| ->]]; cbn; split; discriminate.
Qed.

Lemma counted_under_other mqs :
  Forall classified mqs → counted_under "other" mqs = unbreakpointed mqs.
Proof.
  unfold counted_under, unbreakpointed.
  induction 1 as [|mq mqs Hmq _ IH]; [done|].
  rewrite !filter_cons, IH. pose proof (classified_countKey mq Hmq).
  repeat case_decide; tauto.
Qed.

End other.

(** The mean that the scorer computes, written with the operations of the
    Standard Library: the binary64 quotient of the two counters, and zero
    when there is no breakpoint. *)
Lemma avgPropertiesPerBreakpoint_binary64 breakpointCount totalProperties :
  avgPropertiesPerBreakpoint_of breakpointCount totalProperties =
    if 0 <? breakpointCount
    then SFdiv 53 1024 (binary_normalize 53 1024 totalProperties 0 false)
                       (binary_normalize 53 1024 breakpointCount 0 false)
    else S754_zero false.
Proof. unfold avgPropertiesPerBreakpoint_of. by destruct (0 <? breakpointCount). Qed.

(** The test against 1.5 times the mean, likewise; the second argument of
    the product is the binary64 number 1.5. *)
Lemma is_problem_binary64 mean count :
  is_problem mean count = true
  ↔ SFltb (SFmul 53 1024 mean (S754_finite false 6755399441055744 (-52)))
          (binary_normalize 53 1024 count 0 false) = true
    ∧ 20 < count.
Proof. unfold is_problem. by rewrite andb_true_iff, Z.ltb_lt. Qed.

(** The properties of the records with and without a usable breakpoint make
    up the total. *)
Lemma total_properties_split mqs :
  total_properties mqs =
    total_properties (unbreakpointed mqs)
    + total_properties (filter (λ mq, Js.truthy (breakpoint mq) = true) mqs).
Proof.
  unfold unbreakpointed. induction mqs as [|mq mqs IH]; [done|].
  rewrite !filter_cons, total_properties_cons, IH.
  destruct (Js.truthy (breakpoint mq));
    repeat case_decide; try done; rewrite ?total_properties_cons; lia.
Qed.

(** C10.  For the analysis that the extraction attaches: a record with a
    null breakpoint is counted under the key "other"; the mean that the
    scorer uses is the binary64 quotient of the number of declared
    properties of all records, those of the "other" bucket included, by the
    number of distinct breakpoint pixel values (and zero when there is
    none); and "other" is reported as a problem breakpoint exactly when its
    bucket is not empty and its property count exceeds both 1.5 times that
    mean and 20.  On [print_sheet], four records with three distinct
    (type, value) pairs and two distinct pixel values declare 34 properties,
    30 of them under "other": the mean is 34 / 2 = 17, and "other", with 30
    more than 25.5 and more than 20, is the one problem breakpoint. *)
Theorem other_bucket_is_counted_and_reported :
  (∀ origin sheets,
     ∃ data w a,
       extractMediaQueries origin sheets = (Normal data, w)
       ∧ complexity data = Some a
       ∧ let mqs := mediaQueries data in
         let total := total_properties mqs in
         let count := Z.of_nat (length (distinct_breakpoints mqs)) in
         let mean :=
           if 0 <? count
           then SFdiv 53 1024 (binary_normalize 53 1024 total 0 false)
                              (binary_normalize 53 1024 count 0 false)
           else S754_zero false in
         (∀ mq, mq ∈ mqs → breakpoint mq = None →
                countKey mq = "other" ∧ mq ∈ unbreakpointed mqs)
         ∧ total =
             total_properties (unbreakpointed mqs)
             + total_properties (filter (λ mq, Js.truthy (breakpoint mq) = true) mqs)
         ∧ avgPropertiesPerBreakpoint_of
             (Z.of_nat (length (uniqueBreakpoints (summary data))))
             (count_properties mqs).1 = mean
         ∧ propertyChangesPerBreakpoint (breakdown a) = Js.round mean
         ∧ ∀ c,
             {| Problem.breakpoint := "other"; Problem.propertyCount := c;
                Problem.reason := problem_reason |} ∈ problemBreakpoints a
             ↔ unbreakpointed mqs ≠ []
               ∧ c = total_properties (unbreakpointed mqs)
               ∧ SFltb (SFmul 53 1024 mean (S754_finite false 6755399441055744 (-52)))
                       (binary_normalize 53 1024 c 0 false) = true
               ∧ 20 < c)
  ∧ (∃ data w a,
       extractMediaQueries "https://example.com" [print_sheet] = (Normal data, w)
       ∧ complexity data = Some a
       ∧ length (mediaQueries data) = 4%nat
       ∧ length (distinct_pairs (mediaQueries data)) = 3%nat
       ∧ length (distinct_breakpoints (mediaQueries data)) = 2%nat
       ∧ total_properties (mediaQueries data) = 34
       ∧ total_properties (unbreakpointed (mediaQueries data)) = 30
       ∧ avgPropertiesPerBreakpoint_of
           (Z.of_nat (length (uniqueBreakpoints (summary data))))
           (count_properties (mediaQueries data)).1
         = S754_finite false 4785074604081152 (-48)
       ∧ S754_finite false 4785074604081152 (-48) = binary_normalize 53 1024 17 0 false
       ∧ propertyChangesPerBreakpoint (breakdown a) = 17
       ∧ problemBreakpoints a =
           [{| Problem.breakpoint := "other"; Problem.propertyCount := 30;
               Problem.reason := problem_reason |}]).
Proof.
  split.
  - intros origin sheets. rewrite extractMediaQueries_run. cbv zeta.
    eexists _, _, _. split; [reflexivity|]. split; [reflexivity|].
    pose proof (walk_consistent origin sheets _ initial_results_consistent) as Hcons.
    pose proof (finish_uniqueBreakpoints_length _ Hcons) as Hlen.
    destruct Hcons as [Hrec _ _ _ _].
    set (data := finish (walk origin sheets initial_results)) in *.
    change (mediaQueries (set_complexity (calculateComplexity data) data))
      with (mediaQueries data).
    change (summary (set_complexity (calculateComplexity data) data))
      with (summary data).
    change (mediaQueries (walk origin sheets initial_results))
      with (mediaQueries data) in Hrec.
    destruct (count_properties_spec (mediaQueries data)) as [Htotal Hcounts].
    rewrite <- avgPropertiesPerBreakpoint_binary64.
    split_and!.
    + intros mq Hin Hnull. unfold countKey, unbreakpointed. rewrite Hnull. cbn.
      split; [done|]. apply list_elem_of_filter. by rewrite Hnull.
    + apply total_properties_split.
    + by rewrite Hlen, Htotal.
    + by rewrite breakdown_propertyChanges, Hlen, Htotal.
    + intros c. rewrite problemBreakpoints_calc, elem_of_problemBreakpoints_of.
      rewrite Hcounts, Hlen, Htotal, counted_under_other by done.
      rewrite is_problem_binary64. tauto.
  - rewrite extractMediaQueries_run. cbv zeta.
    eexists _, _, _. split; [reflexivity|]. split; [reflexivity|].
    vm_compute. repeat split.
Qed.

(** * Further properties of the extraction *)

(** ** Decimal numerals *)

Section numerals.

Lemma to_int_not_nil n : Z.to_int n ≠ Decimal.Pos Decimal.Nil ∧ Z.to_int n ≠ Decimal.Neg Decimal.Nil.
Proof.
  destruct n as [|p|p]; cbn; split; try discriminate;
    intros [= Hnil]; by apply DecimalPos.Unsigned.to_uint_nonnil in Hnil.
Qed.

(** Distinct integers print differently. *)
Lemma toString_inj a b : Js.toString a = Js.toString b → a = b.
Proof.
  unfold Js.toString. intros Heq.
  destruct (to_int_not_nil a) as [Ha1 Ha2], (to_int_not_nil b) as [Hb1 Hb2].
  pose proof (NilZero.isi _ Ha1 Ha2) as Hia. pose proof (NilZero.isi _ Hb1 Hb2) as Hib.
  rewrite Heq, Hib in Hia. injection Hia as Hab.
  by rewrite <- (DecimalZ.of_to a), <- (DecimalZ.of_to b), Hab.
Qed.

(** The key of a record with a breakpoint identifies its type and value. *)
Lemma breakpointKey_inj mq1 mq2 :
  classified mq1 → classified mq2 →
  is_Some (breakpoint mq1) → is_Some (breakpoint mq2) →
  breakpointKey mq1 = breakpointKey mq2 →
  type mq1 = type mq2 ∧ breakpoint mq1 = breakpoint mq2.
Proof.
  intros [Hn1 Ht1] [Hn2 Ht2] [b1 Hb1] [b2 Hb2]. unfold breakpointKey.
  rewrite Hb1, Hb2.
  destruct Ht1 as [Ht1|[Ht1|Ht1]]; [apply Hn1 in Ht1; congruence| |];
    (destruct Ht2 as [Ht2|[Ht2|Ht2]]; [apply Hn2 in Ht2; congruence| |]);
    rewrite Ht1, Ht2; cbn; intros [= Hs]; try apply toString_inj in Hs; by subst.
Qed.

End numerals.

(** ** The walk, rule by rule *)

Section trace.

Lemma sheet_effect_visited origin sheet r :
  sheet_effect origin sheet r =
    foldl (λ r rule, rule_effect rule r) r (visited_rules origin sheet).
Proof.
  unfold sheet_effect, visited_rules, run_results, sheet_step, process_sheet, try_catch.
  destruct (foreign origin sheet); [done|].
  unfold mbind, Eval_bind. rewrite !read_rules_run. cbn [fst snd].
  destruct (DOM.cssRules sheet) as [[l|]|e]; [by rewrite for_of_rules_run| |done].
  destruct (DOM.rules sheet) as [[l|]|e]; [by rewrite for_of_rules_run|done|done].
Qed.

Lemma walk_visited origin sheets : ∀ r,
  walk origin sheets r =
    foldl (λ r rule, rule_effect rule r) r (sheets ≫= visited_rules origin).
Proof.
  induction sheets as [|sheet sheets IH]; intros r; [done|].
  rewrite bind_cons, foldl_app, <- sheet_effect_visited. apply IH.
Qed.

(** Everything that a media rule changes. *)
Lemma rule_effect_record mediaText inner r :
  ∃ mq,
    condition mq = mediaText
    ∧ rules mq = omap read_innerRule inner
    ∧ matchCount mq = None
    ∧ follows_condition mq
    ∧ mediaQueries (rule_effect (DOM.MEDIA_RULE mediaText inner) r) = mediaQueries r ++ [mq]
    ∧ totalMediaQueries (summary (rule_effect (DOM.MEDIA_RULE mediaText inner) r)) =
        totalMediaQueries (summary r) + 1
    ∧ breakpoints (rule_effect (DOM.MEDIA_RULE mediaText inner) r) =
        if Js.truthy (breakpoint mq) then breakpoints (group_by_breakpoint mq r)
        else breakpoints r.
Proof.
  unfold rule_effect, run_results, process_rule, follows_condition.
  destruct (Js.match_px "min-width:" mediaText) as [dmin|] eqn:Hmin;
    [|destruct (Js.match_px "max-width:" mediaText) as [dmax|] eqn:Hmax]; run_eval.
  - exists {| condition := mediaText; rules := omap read_innerRule inner;
              breakpoint := Some (Js.parseInt dmin); type := Some "min-width";
              matchCount := None |}.
    cbn. rewrite Hmin. destruct (Js.parseInt dmin =? 0); cbn; by split_and!.
  - exists {| condition := mediaText; rules := omap read_innerRule inner;
              breakpoint := Some (Js.parseInt dmax); type := Some "max-width";
              matchCount := None |}.
    cbn. rewrite Hmin, Hmax. destruct (Js.parseInt dmax =? 0); cbn; by split_and!.
  - exists {| condition := mediaText; rules := omap read_innerRule inner;
              breakpoint := None; type := None; matchCount := None |}.
    cbn. rewrite Hmin, Hmax. by split_and!.
Qed.

Lemma grouped_under_snoc key mqs mq :
  grouped_under key (mqs ++ [mq]) =
    grouped_under key mqs ++
    (if decide (Js.truthy (breakpoint mq) = true ∧ breakpointKey mq = key) then [mq] else []).
Proof. unfold grouped_under. rewrite filter_app. f_equal. Qed.

Lemma group_by_breakpoint_keys mq r :
  NoDup (breakpoints r).*1 → NoDup (breakpoints (group_by_breakpoint mq r)).*1.
Proof.
  intros Hnd. unfold group_by_breakpoint. cbn [breakpoints].
  apply Assoc_set_NoDup.
  destruct (Assoc.get (breakpointKey mq) (breakpoints r)); [done|].
  by apply Assoc_set_NoDup.
Qed.

Lemma rule_effect_traced rule r : traced r → traced (rule_effect rule r).
Proof.
  intros [Htotal Hrec Hkeys Hbuck]. destruct rule as [mediaText inner|]; [|by split].
  destruct (rule_effect_record mediaText inner r)
    as (mq & _ & _ & Hcount & Hfollows & Hmqs & Ht & Hb).
  split.
  - rewrite Ht, Hmqs, length_app, Htotal. cbn. lia.
  - rewrite Hmqs. apply Forall_app. split; [done|]. by apply Forall_singleton.
  - rewrite Hb. destruct (Js.truthy (breakpoint mq)); [|done].
    by apply group_by_breakpoint_keys.
  - intros key. rewrite Hb, Hmqs, grouped_under_snoc.
    destruct (Js.truthy (breakpoint mq)) eqn:Htruthy.
    + rewrite group_by_breakpoint_get, Hbuck.
      destruct (decide (key = breakpointKey mq)) as [->|Hne].
      * destruct (decide (true = true ∧ breakpointKey mq = breakpointKey mq))
          as [_|Hn]; [|by destruct Hn].
        destruct (decide (grouped_under (breakpointKey mq) (mediaQueries r) = []))
          as [->|Hold]; cbn [default app].
        -- by rewrite decide_False.
        -- rewrite decide_False; [done|]. by intros [? _]%app_eq_nil.
      * destruct (decide (true = true ∧ breakpointKey mq = key)) as [[_ Hk]|_];
          [congruence|]. by rewrite app_nil_r.
    + destruct (decide (false = true ∧ breakpointKey mq = key)) as [[Hf _]|_];
        [done|]. by rewrite app_nil_r.
Qed.

Lemma initial_results_traced : traced initial_results.
Proof. split; cbn; [done|constructor|constructor|done]. Qed.

Lemma walk_traced origin sheets : traced (walk origin sheets initial_results).
Proof.
  rewrite walk_visited. generalize (sheets ≫= visited_rules origin). intros rules.
  generalize initial_results_traced. generalize initial_results.
  induction rules as [|rule rules IH]; intros r Hr; [done|].
  cbn [foldl]. by apply IH, rule_effect_traced.
Qed.

(** The records appear in the order in which their rules are visited. *)
Lemma foldl_rule_effect_blocks (visited : list DOM.CSSRule) : ∀ r,
  (λ mq, (condition mq, rules mq))
    <$> mediaQueries (foldl (λ r rule, rule_effect rule r) r visited)
  = ((λ mq, (condition mq, rules mq)) <$> mediaQueries r) ++ media_blocks visited.
Proof.
  induction visited as [|rule visited IH]; intros r; [by rewrite app_nil_r|].
  cbn [foldl]. rewrite IH. destruct rule as [mediaText inner|]; [|done].
  destruct (rule_effect_record mediaText inner r)
    as (mq & Hcond & Hrules & _ & _ & Hmqs & _).
  rewrite Hmqs, fmap_app, <- app_assoc. cbn. by rewrite Hcond, Hrules.
Qed.

End trace.

(** ** Digits *)

Section digits.

Lemma parseInt_go_take_digits s : ∀ acc,
  0 ≤ acc → 0 ≤ Js.parseInt_go acc (Js.take_digits s).1.
Proof.
  induction s as [|c s IH]; intros acc Hacc; [done|].
  cbn [Js.take_digits]. destruct (Js.is_digit c) eqn:Hc; [|done].
  destruct (Js.take_digits s) as [ds rest]. cbn [fst Js.parseInt_go] in *.
  apply IH. unfold Js.is_digit in Hc. apply bool_decide_eq_true in Hc. lia.
Qed.

Lemma match_px_here_digits kw s ds :
  Js.match_px_here kw s = Some ds → ∃ r, ds = (Js.take_digits r).1.
Proof.
  unfold Js.match_px_here. destruct (Js.strip_prefix kw s) as [r|];
    unfold mbind, option_bind; [|done].
  destruct (Js.take_digits (Js.skip_spaces r)) as [ds' rest] eqn:Htake.
  destruct ds' as [|c ds']; [done|].
  destruct (Js.startsWith "px" rest); [|done].
  intros [= <-]. exists (Js.skip_spaces r). by rewrite Htake.
Qed.

Lemma match_px_digits kw s ds :
  Js.match_px kw s = Some ds → ∃ r, ds = (Js.take_digits r).1.
Proof.
  induction s as [|c s IH]; cbn [Js.match_px].
  - destruct (Js.match_px_here kw "") eqn:Hhere; [|done].
    intros [= <-]. by eapply match_px_here_digits.
  - destruct (Js.match_px_here kw (String c s)) eqn:Hhere; [|done].
    intros [= <-]. by eapply match_px_here_digits.
Qed.

(** What the patterns capture never parses to a negative number. *)
Lemma match_px_parseInt_nonneg kw s ds :
  Js.match_px kw s = Some ds → 0 ≤ Js.parseInt ds.
Proof.
  intros [r ->]%match_px_digits. by apply parseInt_go_take_digits.
Qed.

Lemma follows_condition_nonneg mq b :
  follows_condition mq → breakpoint mq = Some b → 0 ≤ b.
Proof.
  unfold follows_condition.
  destruct (Js.match_px "min-width:" (condition mq)) as [dmin|] eqn:Hmin;
    [|destruct (Js.match_px "max-width:" (condition mq)) as [dmax|] eqn:Hmax].
  - intros [-> _] [= <-]. by eapply match_px_parseInt_nonneg.
  - intros [-> _] [= <-]. by eapply match_px_parseInt_nonneg.
  - by intros [-> _].
Qed.

End digits.

(** ** The result of the extraction *)

(** X1.  The total of the summary, and with it [totalQueries] of the
    attached analysis, is the number of records in the flat list. *)
Theorem extracted_total_counts_records origin sheets :
  ∃ data w a,
    extractMediaQueries origin sheets = (Normal data, w)
    ∧ complexity data = Some a
    ∧ totalMediaQueries (summary data) = Z.of_nat (length (mediaQueries data))
    ∧ totalQueries (breakdown a) = Z.of_nat (length (mediaQueries data)).
Proof.
  rewrite extractMediaQueries_run. cbv zeta. eexists _, _, _.
  split; [reflexivity|]. split; [reflexivity|].
  destruct (walk_traced origin sheets) as [Htotal _ _ _].
  split; [exact Htotal|].
  unfold calculateComplexity.
  destruct (count_properties _) as [total counts]. exact Htotal.
Qed.

Lemma StronglySorted_le_lt (l : list Z) :
  StronglySorted Z.le l → NoDup l → StronglySorted Z.lt l.
Proof.
  induction 1 as [|x l Hsorted IH Hall]; intros Hnd; [constructor|].
  apply NoDup_cons in Hnd as [Hx Hnd]. constructor; [by apply IH|].
  rewrite Forall_forall in Hall |- *. intros y Hy.
  pose proof (Hall y Hy). assert (x ≠ y) by (by intros ->). lia.
Qed.

(** X2.  The unique breakpoints of the summary are in strictly increasing
    order, and they are exactly the breakpoint values of the records. *)
Theorem extracted_uniqueBreakpoints_increasing origin sheets :
  ∃ data w,
    extractMediaQueries origin sheets = (Normal data, w)
    ∧ StronglySorted Z.lt (uniqueBreakpoints (summary data))
    ∧ ∀ x, x ∈ uniqueBreakpoints (summary data)
           ↔ ∃ mq, mq ∈ mediaQueries data ∧ breakpoint mq = Some x.
Proof.
  rewrite extractMediaQueries_run. cbv zeta. eexists _, _.
  split; [reflexivity|].
  destruct (walk_consistent origin sheets _ initial_results_consistent)
    as [_ Hnd Huniq _ _].
  cbn. split.
  - apply StronglySorted_le_lt; [apply (StronglySorted_merge_sort _)|].
    by rewrite merge_sort_Permutation.
  - intros x. by rewrite merge_sort_Permutation, Huniq, list_elem_of_omap.
Qed.

(** X3.  The flat list holds one record per media rule of the sheets whose
    rules are read, in the order of the sheets and of their rules, each with
    the condition text and the nested style rules of its rule. *)
Theorem extracted_records_in_order origin sheets :
  ∃ data w,
    extractMediaQueries origin sheets = (Normal data, w)
    ∧ (λ mq, (condition mq, rules mq)) <$> mediaQueries data
      = media_blocks (sheets ≫= visited_rules origin).
Proof.
  rewrite extractMediaQueries_run. cbv zeta. eexists _, _.
  split; [reflexivity|]. cbn [set_complexity finish mediaQueries].
  by rewrite walk_visited, foldl_rule_effect_blocks.
Qed.

(** X4.  The breakpoint and the type of every record follow from its
    condition: a condition that matches the [min-width] pattern gives a
    "min-width" record even if it also has a [max-width] clause; the
    [max-width] pattern is used only when the first fails; no record has a
    [matchCount]. *)
Theorem extracted_records_follow_condition origin sheets :
  ∃ data w,
    extractMediaQueries origin sheets = (Normal data, w)
    ∧ Forall (λ mq, follows_condition mq ∧ matchCount mq = None) (mediaQueries data).
Proof.
  rewrite extractMediaQueries_run. cbv zeta. eexists _, _.
  split; [reflexivity|]. by destruct (walk_traced origin sheets).
Qed.

(** X5.  No record has a negative breakpoint. *)
Theorem extracted_breakpoints_nonnegative origin sheets :
  ∃ data w,
    extractMediaQueries origin sheets = (Normal data, w)
    ∧ Forall (λ mq, ∀ b, breakpoint mq = Some b → 0 ≤ b) (mediaQueries data).
Proof.
  rewrite extractMediaQueries_run. cbv zeta. eexists _, _.
  split; [reflexivity|]. destruct (walk_traced origin sheets) as [_ Hrec _ _].
  cbn. eapply Forall_impl; [exact Hrec|]. cbn.
  intros mq [Hfollows _] b Hb. by eapply follows_condition_nonneg.
Qed.

(** ** The breakpoint map *)

(** X6.  The keys of the breakpoint map are pairwise distinct, and under a
    key the map holds exactly the records of the flat list that have a
    non-zero breakpoint and that key, in the order of the flat list; a key
    without such a record is absent. *)
Theorem extracted_buckets_by_key origin sheets :
  ∃ data w,
    extractMediaQueries origin sheets = (Normal data, w)
    ∧ NoDup (breakpoints data).*1
    ∧ ∀ key,
        Assoc.get key (breakpoints data) =
          if decide (grouped_under key (mediaQueries data) = []) then None
          else Some (grouped_under key (mediaQueries data)).
Proof.
  rewrite extractMediaQueries_run. cbv zeta. eexists _, _.
  split; [reflexivity|]. by destruct (walk_traced origin sheets).
Qed.

Lemma filter_iff_Forall {A} (P Q : A → Prop) `{∀ x, Decision (P x)} `{∀ x, Decision (Q x)}
    (l : list A) :
  Forall (λ x, P x ↔ Q x) l → filter P l = filter Q l.
Proof.
  induction 1 as [|x l Hx _ IH]; [done|].
  rewrite !filter_cons, IH. repeat case_decide; tauto.
Qed.

(** X7.  The bucket of a record with a non-zero breakpoint gathers exactly
    the records with the same type and the same pixel value: 768 as
    "min-width" and 768 as "max-width" are kept apart. *)
Theorem extracted_bucket_of_record origin sheets :
  ∃ data w,
    extractMediaQueries origin sheets = (Normal data, w)
    ∧ ∀ mq b,
        mq ∈ mediaQueries data → breakpoint mq = Some b → b ≠ 0 →
        Assoc.get (breakpointKey mq) (breakpoints data) =
          Some (filter (λ mq', type mq' = type mq ∧ breakpoint mq' = Some b)
                       (mediaQueries data)).
Proof.
  rewrite extractMediaQueries_run. cbv zeta. eexists _, _.
  split; [reflexivity|].
  destruct (walk_traced origin sheets) as [_ _ _ Hbuck].
  destruct (walk_consistent origin sheets _ initial_results_consistent)
    as [Hrec _ _ _ _].
  cbn [set_complexity finish mediaQueries breakpoints].
  intros mq b Hin Hb Hne. rewrite Hbuck.
  assert (Js.truthy (breakpoint mq) = true) as Htruthy.
  { rewrite Hb. cbn. by apply negb_true_iff, Z.eqb_neq. }
  assert (grouped_under (breakpointKey mq) (mediaQueries (walk origin sheets initial_results))
          = filter (λ mq', type mq' = type mq ∧ breakpoint mq' = Some b)
                   (mediaQueries (walk origin sheets initial_results))) as Heq.
  { apply filter_iff_Forall. rewrite Forall_forall in Hrec |- *.
    intros mq' Hin'. split.
    - intros [Htruthy' Hkey].
      destruct (breakpoint mq') as [b'|] eqn:Hb'; [|done].
      destruct (breakpointKey_inj mq' mq) as [Ht Hbb];
        [by apply Hrec|by apply Hrec|by rewrite Hb'|by rewrite Hb|done|].
      split; [done|]. by rewrite <- Hb, <- Hbb.
    - intros [Ht Hb']. split; [by rewrite Hb', <- Hb|].
      unfold breakpointKey. by rewrite Ht, Hb', Hb. }
  rewrite Heq. rewrite decide_False; [done|].
  intros Hnil. assert (mq ∈ @nil MediaQuery) as Hmq; [|by apply elem_of_nil in Hmq].
  rewrite <- Hnil. apply list_elem_of_filter. by split.
Qed.

(** ** Foreign sheets *)

Lemma sheet_warnings_foreign origin sheet :
  foreign origin sheet = true → sheet_warnings origin sheet = [].
Proof.
  intros Hf. pose proof (sheet_warnings_cases origin sheet) as Hw.
  by rewrite Hf in Hw.
Qed.

Lemma walk_skips_foreign origin sheets : ∀ r,
  walk origin (filter (λ sheet, foreign origin sheet = false) sheets) r
  = walk origin sheets r.
Proof.
  induction sheets as [|sheet sheets IH]; intros r; [done|].
  rewrite filter_cons. unfold walk in *. destruct (foreign origin sheet) eqn:Hf.
  - case_decide; [done|]. cbn [foldl]. by rewrite sheet_effect_foreign.
  - case_decide; [|done]. cbn [foldl]. apply IH.
Qed.

Lemma warnings_skip_foreign origin sheets :
  filter (λ sheet, foreign origin sheet = false) sheets ≫= sheet_warnings origin
  = sheets ≫= sheet_warnings origin.
Proof.
  induction sheets as [|sheet sheets IH]; [done|].
  rewrite filter_cons, bind_cons. destruct (foreign origin sheet) eqn:Hf.
  - case_decide; [done|]. rewrite sheet_warnings_foreign by done. exact IH.
  - case_decide; [|done]. by rewrite bind_cons, IH.
Qed.

(** X8.  A sheet with an [href] that does not start with the origin of the
    page is passed over without being read: with such sheets removed, the
    extraction gives the same result and the same console output, whether
    or not their rules could have been read. *)
Theorem foreign_sheets_are_not_read origin sheets :
  extractMediaQueries origin (filter (λ sheet, foreign origin sheet = false) sheets)
  = extractMediaQueries origin sheets.
Proof.
  rewrite !extractMediaQueries_run. cbv zeta.
  by rewrite walk_skips_foreign, warnings_skip_foreign.
Qed.

(** ** The properties of a style rule *)

Lemma foldl_assign_property_lookup (g : string → string) (names : list string) prop :
  ∀ m : gmap string string,
    foldl (λ properties name, assign_property properties name (g name)) m names !! prop =
      if decide (prop ∈ names ∧ prop ≠ "__proto__") then Some (g prop) else m !! prop.
Proof.
  induction names as [|name names IH]; intros m; cbn [foldl].
  - rewrite decide_False; [done|]. by intros [?%elem_of_nil _].
  - rewrite IH. destruct (decide (prop ∈ names ∧ prop ≠ "__proto__")) as [[Hin Hne]|Hout].
    + rewrite decide_True; [done|]. split; [by apply list_elem_of_further|done].
    + unfold assign_property. destruct (decide (name = "__proto__")) as [->|Hname].
      * rewrite decide_False; [done|].
        intros [[->|Hin]%elem_of_cons Hne]; [done|]. by apply Hout.
      * destruct (decide (prop = name)) as [->|Hne].
        -- rewrite lookup_insert_eq. rewrite decide_True; [done|].
           split; [apply list_elem_of_here|done].
        -- rewrite lookup_insert_ne by done. rewrite decide_False; [done|].
           intros [[?|Hin]%elem_of_cons Hproto]; [done|]. by apply Hout.
Qed.

Example read_properties_proto :
  read_properties (declarations ["color"; "__proto__"; "color"] "red")
  = {["color" := "red"]}.
Proof. reflexivity. Qed.

(** X9.  The [properties] of an extracted style rule map each name that the
    declaration block lists, other than [__proto__], to the value that
    [getPropertyValue] gives for it, and nothing else: assigning to
    [__proto__] creates no key.  The number of keys is the number of
    distinct names listed, [__proto__] left out. *)
Theorem read_properties_spec (style : DOM.CSSStyleDeclaration) :
  (∀ prop,
     read_properties style !! prop =
       if decide (prop ∈ DOM.names style ∧ prop ≠ "__proto__")
       then Some (DOM.getPropertyValue style prop)
       else None)
  ∧ ∀ selectorText,
      propCount {| selector := selectorText; properties := read_properties style |}
      = Z.of_nat (length (remove_dups
                            (filter (λ name, name ≠ "__proto__") (DOM.names style)))).
Proof.
  assert (∀ prop,
     read_properties style !! prop =
       if decide (prop ∈ DOM.names style ∧ prop ≠ "__proto__")
       then Some (DOM.getPropertyValue style prop)
       else None) as Hlookup.
  { intros prop. unfold read_properties.
    by rewrite (foldl_assign_property_lookup (DOM.getPropertyValue style)). }
  split; [exact Hlookup|]. intros selectorText. unfold propCount. cbn. f_equal.
  rewrite <- size_dom.
  assert (dom (read_properties style)
          = list_to_set (remove_dups
                           (filter (λ name, name ≠ "__proto__") (DOM.names style))))
    as ->.
  { apply set_eq. intros prop.
    rewrite elem_of_dom, elem_of_list_to_set, elem_of_remove_dups, list_elem_of_filter,
      Hlookup.
    case_decide as Hcase.
    - split; [intros _; tauto|by eauto].
    - split; [by intros [? ?]|]. intros [? ?]. destruct Hcase. by split. }
  apply size_list_to_set, NoDup_remove_dups.
Qed.

(** * Further properties of the scorer *)

Section bounds.

Lemma breakpointScore_at_most_25 n : breakpointScore_of n ≤ 25.
Proof. unfold breakpointScore_of. repeat case_match; lia. Qed.

Lemma propertyScore_at_most_30 avg : propertyScore_of avg ≤ 30.
Proof. unfold propertyScore_of. repeat case_match; lia. Qed.

Lemma nestedScore_at_most_20 n : nestedScore_of n ≤ 20.
Proof. unfold nestedScore_of. repeat case_match; lia. Qed.

Lemma overlapScore_at_most_15 n : overlapScore_of n ≤ 15.
Proof. unfold overlapScore_of. repeat case_match; lia. Qed.

Lemma queryCountScore_at_most_10 n : queryCountScore_of n ≤ 10.
Proof. unfold queryCountScore_of. repeat case_match; lia. Qed.

End bounds.

(** X10.  Each sub-score stays within its weight (25, 30, 20, 15 and 10
    points), so the score of any data is at most 100. *)
Theorem score_at_most_100 :
  (∀ n, breakpointScore_of n ≤ 25)
  ∧ (∀ avg, propertyScore_of avg ≤ 30)
  ∧ (∀ n, nestedScore_of n ≤ 20)
  ∧ (∀ n, overlapScore_of n ≤ 15)
  ∧ (∀ n, queryCountScore_of n ≤ 10)
  ∧ ∀ data, score (calculateComplexity data) ≤ 100.
Proof.
  split_and!;
    [apply breakpointScore_at_most_25|apply propertyScore_at_most_30
    |apply nestedScore_at_most_20|apply overlapScore_at_most_15
    |apply queryCountScore_at_most_10|].
  intros data. rewrite score_sum. cbv zeta.
  pose proof (breakpointScore_at_most_25 (Z.of_nat (length (uniqueBreakpoints (summary data))))).
  pose proof (propertyScore_at_most_30
    (avgPropertiesPerBreakpoint_of (Z.of_nat (length (uniqueBreakpoints (summary data))))
       (count_properties (mediaQueries data)).1)).
  pose proof (nestedScore_at_most_20 (nestedOrCombinedCount_of (mediaQueries data))).
  pose proof (overlapScore_at_most_15 (overlapCount_of (mediaQueries data))).
  pose proof (queryCountScore_at_most_10 (totalMediaQueries (summary data))).
  lia.
Qed.

Lemma breakpointScore_mono (n m : Z) :
  0 ≤ n → n ≤ m → breakpointScore_of n ≤ breakpointScore_of m.
Proof.
  intros Hn Hnm. unfold breakpointScore_of.
  repeat match goal with
         | |- context [?a =? ?b] => destruct (Z.eqb_spec a b)
         | |- context [?a <=? ?b] => destruct (Z.leb_spec a b)
         end; lia.
Qed.

(** X11.  Each of the four sub-scores of a counter grows with the counter:
    more breakpoints, more nested conditions, more overlaps or more queries
    never lower it. *)
Theorem counter_scores_monotone (n m : Z) :
  0 ≤ n → n ≤ m →
  breakpointScore_of n ≤ breakpointScore_of m
  ∧ nestedScore_of n ≤ nestedScore_of m
  ∧ overlapScore_of n ≤ overlapScore_of m
  ∧ queryCountScore_of n ≤ queryCountScore_of m.
Proof.
  intros Hn Hnm. split; [by apply breakpointScore_mono|].
  unfold nestedScore_of, overlapScore_of, queryCountScore_of.
  repeat match goal with
         | |- context [?a =? ?b] => destruct (Z.eqb_spec a b)
         | |- context [?a <=? ?b] => destruct (Z.leb_spec a b)
         end; lia.
Qed.

Lemma counter_scores_monotone_witness :
  breakpointScore_of 3 ≤ breakpointScore_of 4
  ∧ nestedScore_of 3 ≤ nestedScore_of 4
  ∧ overlapScore_of 3 ≤ overlapScore_of 4
  ∧ queryCountScore_of 3 ≤ queryCountScore_of 4.
Proof. apply (counter_scores_monotone 3 4); lia. Defined.

(** ** Overlaps *)

Section overlaps.

Lemma foldl_count_if {A} (P : A → Prop) `{∀ x, Decision (P x)} (test : A → bool) (l : list A) :
  (∀ x, test x = true ↔ P x) →
  ∀ n : Z, foldl (λ c x, if test x then c + 1 else c) n l = n + Z.of_nat (length (filter P l)).
Proof.
  intros Htest. induction l as [|x l IH]; intros n; cbn [foldl]; [cbn; lia|].
  rewrite IH, filter_cons. destruct (test x) eqn:Hx.
  - rewrite decide_True by (by apply Htest). cbn [length]. lia.
  - rewrite decide_False; [lia|]. rewrite <- Htest. congruence.
Qed.

Lemma overlapCount_pairs mins maxs : ∀ n : Z,
  foldl (λ overlapCount min,
           foldl (λ overlapCount max,
                    if Z.abs (min - max) <=? 1 then overlapCount + 1 else overlapCount)
                 overlapCount maxs)
        n mins
  = n + Z.of_nat (length (filter (λ p, Z.abs (p.1 - p.2) ≤ 1) (list_prod mins maxs))).
Proof.
  induction mins as [|min mins IH]; intros n; cbn [foldl list_prod]; [cbn; lia|].
  rewrite IH, filter_app, length_app.
  rewrite (foldl_count_if (λ max, Z.abs (min - max) ≤ 1)) by (intros; apply Z.leb_le).
  assert (length (filter (λ p : Z * Z, Z.abs (p.1 - p.2) ≤ 1) (map (λ y, (min, y)) maxs))
          = length (filter (λ max, Z.abs (min - max) ≤ 1) maxs)) as ->; [|lia].
  clear. induction maxs as [|max maxs IH]; [done|].
  cbn [map]. rewrite !filter_cons. cbn [fst snd].
  case_decide; cbn [length]; by rewrite IH.
Qed.

Lemma elem_of_widths t mqs b :
  b ∈ widths t mqs ↔ ∃ mq, mq ∈ mqs ∧ type mq = Some t ∧ breakpoint mq = Some b ∧ b ≠ 0.
Proof.
  unfold widths. rewrite list_elem_of_omap. split.
  - intros (mq & Hin & Hb). apply list_elem_of_filter in Hin as [Hp Hin].
    apply andb_True in Hp as [Ht Htruthy]. apply bool_decide_unpack in Ht.
    exists mq. split_and!; [done..|]. rewrite Hb in Htruthy. cbn in Htruthy.
    apply negb_True in Htruthy. intros ->. by apply Htruthy.
  - intros (mq & Hin & Ht & Hb & Hne). exists mq. split; [|done].
    apply list_elem_of_filter. split; [|done].
    apply andb_True. split; [by apply bool_decide_pack|].
    rewrite Hb. cbn. apply negb_True. intros Hz. apply Is_true_eq_true, Z.eqb_eq in Hz. done.
Qed.

End overlaps.

(** X12.  [overlaps] is the number of pairs of a min-width value and a
    max-width value, taken over all pairs of such records, that differ by at
    most one pixel; the values are those of the records of that type whose
    breakpoint is not zero. *)
Theorem overlaps_counts_close_pairs data :
  overlaps (breakdown (calculateComplexity data)) =
    Z.of_nat (length (filter (λ p, Z.abs (p.1 - p.2) ≤ 1)
                             (list_prod (widths "min-width" (mediaQueries data))
                                        (widths "max-width" (mediaQueries data)))))
  ∧ ∀ t b,
      b ∈ widths t (mediaQueries data)
      ↔ ∃ mq, mq ∈ mediaQueries data ∧ type mq = Some t ∧ breakpoint mq = Some b ∧ b ≠ 0.
Proof.
  split; [|intros t b; apply elem_of_widths].
  unfold calculateComplexity.
  destruct (count_properties (mediaQueries data)) as [total counts].
  cbn [breakdown overlaps]. unfold overlapCount_of. cbv zeta.
  rewrite overlapCount_pairs. lia.
Qed.

(** ** Nested queries *)

(** X13.  [nestedQueries] lies between the number of records that have more
    than two [and]-joined clauses or name a media feature and twice that
    number. *)
Theorem nestedQueries_bounds data :
  nested_records (mediaQueries data) ≤ nestedQueries (breakdown (calculateComplexity data))
  ∧ nestedQueries (breakdown (calculateComplexity data)) ≤ 2 * nested_records (mediaQueries data).
Proof.
  rewrite breakdown_nestedQueries. unfold nestedOrCombinedCount_of, nested_records.
  rewrite foldl_count_nested.
  induction (mediaQueries data) as [|mq mqs IH]; [cbn; lia|].
  rewrite !filter_cons.
  destruct (more_than_two_clauses mq), (mentions_feature mq); cbn [orb];
    repeat case_decide; try done; cbn [length]; lia.
Qed.

(** ** Problem breakpoints *)

Section problems.

Lemma problemBreakpoints_of_keys avg counts :
  NoDup counts.*1 → NoDup (Problem.breakpoint <$> problemBreakpoints_of avg counts).
Proof.
  unfold problemBreakpoints_of.
  induction counts as [|[key count] counts IH]; cbn; intros Hnd; [constructor|].
  apply NoDup_cons in Hnd as [Hkey Hnd].
  destruct (is_problem avg count); cbn; [|by apply IH].
  apply NoDup_cons. split; [|by apply IH].
  intros (p & -> & Hp)%list_elem_of_fmap.
  apply list_elem_of_omap in Hp as ([k c] & Hin & Hsome).
  destruct (is_problem avg c); [|done]. injection Hsome as <-. cbn in Hkey.
  apply Hkey, list_elem_of_fmap. by exists (k, c).
Qed.

Lemma elem_of_problemBreakpoints_of_inv avg counts p :
  p ∈ problemBreakpoints_of avg counts →
  p = {| Problem.breakpoint := Problem.breakpoint p;
         Problem.propertyCount := Problem.propertyCount p;
         Problem.reason := problem_reason |}.
Proof.
  unfold problemBreakpoints_of. intros ([k c] & Hin & Hsome)%list_elem_of_omap.
  destruct (is_problem avg c); [|done]. by injection Hsome as <-.
Qed.

End problems.

(** X14.  The problem breakpoints are, for any data, the keys under which
    some record is counted and whose total of declared properties exceeds
    both 1.5 times the mean and 20, each reported once with that total and
    the fixed reason. *)
Theorem problemBreakpoints_spec data :
  let mqs := mediaQueries data in
  let mean :=
    avgPropertiesPerBreakpoint_of
      (Z.of_nat (length (uniqueBreakpoints (summary data)))) (total_properties mqs) in
  (∀ p, p ∈ problemBreakpoints (calculateComplexity data)
        ↔ ∃ key,
            counted_under key mqs ≠ []
            ∧ p = {| Problem.breakpoint := key;
                     Problem.propertyCount := total_properties (counted_under key mqs);
                     Problem.reason := problem_reason |}
            ∧ Js.gtb (Js.of_Z (total_properties (counted_under key mqs)))
                     (Js.mul mean Js.one_and_a_half) = true
            ∧ 20 < total_properties (counted_under key mqs))
  ∧ NoDup (Problem.breakpoint <$> problemBreakpoints (calculateComplexity data)).
Proof.
  intros mqs mean. subst mqs mean. rewrite problemBreakpoints_calc.
  destruct (count_properties_spec (mediaQueries data)) as [Htotal Hcounts].
  rewrite Htotal. split.
  - intros p. split.
    + intros Hp. pose proof (elem_of_problemBreakpoints_of_inv _ _ _ Hp) as Hshape.
      rewrite Hshape in Hp. apply elem_of_problemBreakpoints_of in Hp as [Hin Hproblem].
      apply Hcounts in Hin as [Hne Hc]. exists (Problem.breakpoint p).
      unfold is_problem in Hproblem. apply andb_true_iff in Hproblem as [Hgt Hfloor].
      apply Z.ltb_lt in Hfloor. rewrite Hc in *. by split_and!.
    + intros (key & Hne & -> & Hgt & Hfloor).
      apply elem_of_problemBreakpoints_of. split; [by apply Hcounts|].
      unfold is_problem. rewrite Hgt. by apply Z.ltb_lt.
  - apply problemBreakpoints_of_keys.
    by destruct (foldl_count_mediaQuery (mediaQueries data) 0 [] (NoDup_nil_2 (A:=string)))
      as (_ & _ & Hnd).
Qed.

(** X15.  When the summary lists no breakpoint, the mean is taken to be 0
    instead of dividing by zero: the rounded mean is 0 and the property
    sub-score is 5, so the score is 5 plus the nesting, overlap and
    query-count sub-scores. *)
Theorem score_without_breakpoints data :
  uniqueBreakpoints (summary data) = [] →
  breakpointCount (breakdown (calculateComplexity data)) = 0
  ∧ propertyChangesPerBreakpoint (breakdown (calculateComplexity data)) = 0
  ∧ score (calculateComplexity data) =
      5 + nestedScore_of (nestedOrCombinedCount_of (mediaQueries data))
        + overlapScore_of (overlapCount_of (mediaQueries data))
        + queryCountScore_of (totalMediaQueries (summary data)).
Proof.
  intros Hnone.
  rewrite breakdown_breakpointCount, breakdown_propertyChanges, score_sum, Hnone.
  cbv zeta. by split_and!.
Qed.

Lemma score_without_breakpoints_witness :
  breakpointCount (breakdown (calculateComplexity initial_results)) = 0
  ∧ propertyChangesPerBreakpoint (breakdown (calculateComplexity initial_results)) = 0
  ∧ score (calculateComplexity initial_results) =
      5 + nestedScore_of (nestedOrCombinedCount_of (mediaQueries initial_results))
        + overlapScore_of (overlapCount_of (mediaQueries initial_results))
        + queryCountScore_of (totalMediaQueries (summary initial_results)).
Proof. apply (score_without_breakpoints initial_results). reflexivity. Defined.

(** ** More sheets *)

Section growth.

Lemma foldl_rule_effect_prefix (visited : list DOM.CSSRule) : ∀ r,
  mediaQueries r `prefix_of` mediaQueries (foldl (λ r rule, rule_effect rule r) r visited).
Proof.
  induction visited as [|rule visited IH]; intros r; [done|].
  cbn [foldl]. etrans; [|apply IH]. destruct rule as [mediaText inner|]; [|done].
  destruct (rule_effect_record mediaText inner r) as (mq & _ & _ & _ & _ & -> & _).
  by apply prefix_app_r.
Qed.

Lemma distinct_breakpoints_prefix mqs1 mqs2 :
  mqs1 `prefix_of` mqs2 →
  (length (distinct_breakpoints mqs1) ≤ length (distinct_breakpoints mqs2))%nat.
Proof.
  intros [rest ->]. apply submseteq_length, NoDup_submseteq; [apply NoDup_remove_dups|].
  intros x. unfold distinct_breakpoints.
  rewrite !elem_of_remove_dups, omap_app, elem_of_app. by left.
Qed.

End growth.

(** X16.  Appending sheets to the page only appends: the records and the
    console output of the shorter page are a prefix of those of the longer
    one, and neither [breakpointCount] nor its sub-score goes down. *)
Theorem more_sheets_only_add origin sheets more :
  ∃ data w a data' w' a',
    extractMediaQueries origin sheets = (Normal data, w)
    ∧ complexity data = Some a
    ∧ extractMediaQueries origin (sheets ++ more) = (Normal data', w')
    ∧ complexity data' = Some a'
    ∧ mediaQueries data `prefix_of` mediaQueries data'
    ∧ w `prefix_of` w'
    ∧ breakpointCount (breakdown a) ≤ breakpointCount (breakdown a')
    ∧ breakpointScore_of (breakpointCount (breakdown a))
      ≤ breakpointScore_of (breakpointCount (breakdown a')).
Proof.
  rewrite !extractMediaQueries_run. cbv zeta. eexists _, _, _, _, _, _.
  split; [reflexivity|]. split; [reflexivity|].
  split; [reflexivity|]. split; [reflexivity|].
  assert (mediaQueries (walk origin sheets initial_results)
          `prefix_of` mediaQueries (walk origin (sheets ++ more) initial_results)) as Hprefix.
  { unfold walk. rewrite foldl_app. fold (walk origin sheets initial_results).
    fold (walk origin more (walk origin sheets initial_results)).
    rewrite (walk_visited origin more). apply foldl_rule_effect_prefix. }
  assert (breakpointCount (breakdown (calculateComplexity
            (finish (walk origin sheets initial_results))))
          ≤ breakpointCount (breakdown (calculateComplexity
            (finish (walk origin (sheets ++ more) initial_results))))) as Hcount.
  { rewrite !breakdown_breakpointCount.
    rewrite !finish_uniqueBreakpoints_length
      by apply walk_consistent, initial_results_consistent.
    apply inj_le. by apply distinct_breakpoints_prefix. }
  split_and!.
  - exact Hprefix.
  - rewrite bind_app. by apply prefix_app_r.
  - exact Hcount.
  - apply breakpointScore_mono; [|exact Hcount].
    rewrite breakdown_breakpointCount. lia.
Qed.

(** * Further properties of the filter stage *)

Section matching.

(** What it takes for a rule to pass the filters. *)
Lemma rule_matches_spec propertyFilter selectorFilter rule :
  rule_matches propertyFilter selectorFilter rule = true
  ↔ (Js.truthy_str propertyFilter = true →
       ∃ prop, is_Some (properties rule !! prop)
               ∧ (Js.includes (default "" propertyFilter) prop = true
                  ∨ Js.includes prop (default "" propertyFilter) = true))
    ∧ (Js.truthy_str selectorFilter = true →
         Js.includes (default "" selectorFilter) (selector rule) = true).
Proof.
  unfold rule_matches. rewrite andb_true_iff.
  assert ((if Js.truthy_str propertyFilter
           then existsb (λ prop, Js.includes (default "" propertyFilter) prop
                                 || Js.includes prop (default "" propertyFilter))
                        (elements (dom (properties rule)))
           else negb (Js.truthy_str propertyFilter)) = true
          ↔ (Js.truthy_str propertyFilter = true →
               ∃ prop, is_Some (properties rule !! prop)
                       ∧ (Js.includes (default "" propertyFilter) prop = true
                          ∨ Js.includes prop (default "" propertyFilter) = true))) as ->.
  { destruct (Js.truthy_str propertyFilter); cbn [negb]; [|by split].
    rewrite existsb_exists. split.
    - intros (prop & Hin & Hmatch) _. exists prop. split.
      + apply list_elem_of_In, elem_of_elements in Hin. by apply elem_of_dom.
      + by apply orb_true_iff.
    - intros Hex. destruct (Hex eq_refl) as (prop & Hsome & Hmatch). exists prop. split.
      + apply list_elem_of_In, elem_of_elements. by apply elem_of_dom.
      + by apply orb_true_iff. }
  assert ((if Js.truthy_str selectorFilter
           then Js.includes (default "" selectorFilter) (selector rule)
           else negb (Js.truthy_str selectorFilter)) = true
          ↔ (Js.truthy_str selectorFilter = true →
               Js.includes (default "" selectorFilter) (selector rule) = true)) as ->; [|done].
  destruct (Js.truthy_str selectorFilter); cbn [negb]; [|by split].
  split; [done|]. intros Hs. by apply Hs.
Qed.

Lemma filter_mediaQuery_header propertyFilter selectorFilter mq :
  condition (filter_mediaQuery propertyFilter selectorFilter mq) = condition mq
  ∧ breakpoint (filter_mediaQuery propertyFilter selectorFilter mq) = breakpoint mq
  ∧ type (filter_mediaQuery propertyFilter selectorFilter mq) = type mq.
Proof. done. Qed.

(** The records after filtering, when a filter is active. *)
Lemma elem_of_filtered propertyFilter selectorFilter data mq' :
  negb (Js.truthy_str propertyFilter) && negb (Js.truthy_str selectorFilter) = false →
  mq' ∈ mediaQueries (applyFilters propertyFilter selectorFilter data)
  ↔ ∃ mq, mq ∈ mediaQueries data
          ∧ mq' = filter_mediaQuery propertyFilter selectorFilter mq
          ∧ rules mq' ≠ [].
Proof.
  intros Hactive. unfold applyFilters. rewrite Hactive. cbn [mediaQueries].
  rewrite list_elem_of_filter, list_elem_of_fmap. split.
  - intros [Hne (mq & -> & Hin)]. exists mq. split_and!; [done..|].
    intros Hnil. rewrite Hnil in Hne. done.
  - intros (mq & Hin & -> & Hne). split; [|by exists mq].
    destruct (rules _); [done|]. done.
Qed.

End matching.

(** X17.  When a property or a selector filter is given, every record that
    remains has at least one rule and a [matchCount] equal to the number of
    its rules, and each of its rules passes every filter given: one of its
    property names contains the property filter or is contained in it, and
    its selector contains the selector filter. *)
Theorem filtered_records_match propertyFilter selectorFilter data :
  Js.truthy_str propertyFilter = true ∨ Js.truthy_str selectorFilter = true →
  Forall (λ mq,
            rules mq ≠ []
            ∧ matchCount mq = Some (Z.of_nat (length (rules mq)))
            ∧ Forall (λ rule,
                        (Js.truthy_str propertyFilter = true →
                           ∃ prop, is_Some (properties rule !! prop)
                                   ∧ (Js.includes (default "" propertyFilter) prop = true
                                      ∨ Js.includes prop (default "" propertyFilter) = true))
                        ∧ (Js.truthy_str selectorFilter = true →
                             Js.includes (default "" selectorFilter) (selector rule) = true))
                     (rules mq))
         (mediaQueries (applyFilters propertyFilter selectorFilter data)).
Proof.
  intros Hgiven.
  assert (negb (Js.truthy_str propertyFilter) && negb (Js.truthy_str selectorFilter) = false)
    as Hactive by (destruct Hgiven as [-> | ->]; [done|apply andb_false_r]).
  apply Forall_forall. intros mq' Hin.
  apply (elem_of_filtered _ _ _ _ Hactive) in Hin as (mq & Hin & -> & Hne).
  split_and!; [done|done|]. cbn [filter_mediaQuery rules].
  apply Forall_forall. intros rule [Hmatch _]%list_elem_of_filter.
  by apply rule_matches_spec, Is_true_eq_true.
Qed.

Lemma filtered_records_match_witness :
  Forall (λ mq,
            rules mq ≠ []
            ∧ matchCount mq = Some (Z.of_nat (length (rules mq)))
            ∧ Forall (λ rule,
                        (Js.truthy_str None = true →
                           ∃ prop, is_Some (properties rule !! prop)
                                   ∧ (Js.includes (default "" None) prop = true
                                      ∨ Js.includes prop (default "" None) = true))
                        ∧ (Js.truthy_str (Some ".navbar") = true →
                             Js.includes (default "" (Some ".navbar")) (selector rule) = true))
                     (rules mq))
         (mediaQueries (applyFilters None (Some ".navbar") navbar_footer_data)).
Proof. apply (filtered_records_match None (Some ".navbar")). right. reflexivity. Defined.

(** X18.  Filtering invents nothing: the records that remain are, in order,
    records of the input with the same condition, breakpoint and type, and
    the rules of each are rules of that record, in order. *)
Theorem filtered_records_come_from_input propertyFilter selectorFilter data :
  (λ mq, (condition mq, breakpoint mq, type mq))
     <$> mediaQueries (applyFilters propertyFilter selectorFilter data)
  `sublist_of` (λ mq, (condition mq, breakpoint mq, type mq)) <$> mediaQueries data
  ∧ Forall (λ mq', ∃ mq, mq ∈ mediaQueries data
                         ∧ condition mq' = condition mq
                         ∧ breakpoint mq' = breakpoint mq
                         ∧ type mq' = type mq
                         ∧ rules mq' `sublist_of` rules mq)
           (mediaQueries (applyFilters propertyFilter selectorFilter data)).
Proof.
  destruct (negb (Js.truthy_str propertyFilter) && negb (Js.truthy_str selectorFilter))
    eqn:Hactive.
  - unfold applyFilters. rewrite Hactive. split; [done|].
    apply Forall_forall. intros mq Hin. by exists mq.
  - split.
    + unfold applyFilters. rewrite Hactive. cbn [mediaQueries].
      etrans; [apply fmap_sublist, sublist_filter|].
      by rewrite <- list_fmap_compose.
    + apply Forall_forall. intros mq' Hin.
      apply (elem_of_filtered _ _ _ _ Hactive) in Hin as (mq & Hin & -> & _).
      exists mq. split_and!; [done..|]. apply sublist_filter.
Qed.

(** X19.  Filtering loses nothing that passes: a rule of an input record
    that passes the filters is a rule of a remaining record with the same
    condition, breakpoint and type. *)
Theorem matching_rules_are_kept propertyFilter selectorFilter data :
  Forall (λ mq,
            Forall (λ rule,
                      rule_matches propertyFilter selectorFilter rule = true →
                      ∃ mq', mq' ∈ mediaQueries (applyFilters propertyFilter selectorFilter data)
                             ∧ condition mq' = condition mq
                             ∧ breakpoint mq' = breakpoint mq
                             ∧ type mq' = type mq
                             ∧ rule ∈ rules mq')
                   (rules mq))
         (mediaQueries data).
Proof.
  apply Forall_forall. intros mq Hin. apply Forall_forall. intros rule Hrule Hmatch.
  destruct (negb (Js.truthy_str propertyFilter) && negb (Js.truthy_str selectorFilter))
    eqn:Hactive.
  - unfold applyFilters. rewrite Hactive. by exists mq.
  - exists (filter_mediaQuery propertyFilter selectorFilter mq).
    assert (rule ∈ rules (filter_mediaQuery propertyFilter selectorFilter mq)) as Hkept.
    { cbn. apply list_elem_of_filter. split; [|done]. by rewrite Hmatch. }
    split_and!; [|done..].
    apply (elem_of_filtered _ _ _ _ Hactive). exists mq. split_and!; [done..|].
    intros Hnil. rewrite Hnil in Hkept. by apply elem_of_nil in Hkept.
Qed.

(** ** One filter after the other *)

Section composition.
Variables propertyFilter selectorFilter : option string.

Lemma rule_matches_split rule :
  rule_matches propertyFilter selectorFilter rule
  = rule_matches propertyFilter None rule && rule_matches None selectorFilter rule.
Proof. unfold rule_matches. cbn. by rewrite andb_true_r. Qed.

Lemma filter_rules_property_selector (l : list StyleRule) :
  filter (λ rule, rule_matches propertyFilter None rule)
         (filter (λ rule, rule_matches None selectorFilter rule) l)
  = filter (λ rule, rule_matches propertyFilter selectorFilter rule) l.
Proof.
  rewrite list_filter_filter. apply list_filter_iff. intros rule.
  rewrite (rule_matches_split rule). by rewrite andb_True.
Qed.

Lemma filter_rules_selector_property (l : list StyleRule) :
  filter (λ rule, rule_matches None selectorFilter rule)
         (filter (λ rule, rule_matches propertyFilter None rule) l)
  = filter (λ rule, rule_matches propertyFilter selectorFilter rule) l.
Proof.
  rewrite list_filter_filter. apply list_filter_iff. intros rule.
  rewrite (rule_matches_split rule), andb_True. tauto.
Qed.

Let nonempty (mq : MediaQuery) : Prop := 0 <? Z.of_nat (length (rules mq)).

Lemma nonempty_nil mq : rules mq = [] → ¬ nonempty mq.
Proof. unfold nonempty. intros -> Hf. exact Hf. Qed.

Lemma filter_records_property_selector (mqs : list MediaQuery) :
  filter nonempty
    (filter_mediaQuery propertyFilter None <$>
       filter nonempty (filter_mediaQuery None selectorFilter <$> mqs))
  = filter nonempty (filter_mediaQuery propertyFilter selectorFilter <$> mqs).
Proof.
  induction mqs as [|mq mqs IH]; [done|].
  rewrite !fmap_cons, !filter_cons.
  destruct (decide (nonempty (filter_mediaQuery None selectorFilter mq))) as [Hs|Hs].
  - rewrite fmap_cons, filter_cons, IH.
    assert (filter_mediaQuery propertyFilter None (filter_mediaQuery None selectorFilter mq)
            = filter_mediaQuery propertyFilter selectorFilter mq) as ->; [|done].
    unfold filter_mediaQuery. cbn [rules condition breakpoint type].
    by rewrite filter_rules_property_selector.
  - rewrite IH. rewrite decide_False; [done|].
    apply nonempty_nil. cbn [filter_mediaQuery rules].
    rewrite <- filter_rules_property_selector.
    destruct (filter (λ rule, rule_matches None selectorFilter rule) (rules mq)) eqn:Hnil;
      [done|]. destruct Hs. unfold nonempty. cbn [filter_mediaQuery rules]. by rewrite Hnil.
Qed.

Lemma filter_records_selector_property (mqs : list MediaQuery) :
  filter nonempty
    (filter_mediaQuery None selectorFilter <$>
       filter nonempty (filter_mediaQuery propertyFilter None <$> mqs))
  = filter nonempty (filter_mediaQuery propertyFilter selectorFilter <$> mqs).
Proof.
  induction mqs as [|mq mqs IH]; [done|].
  rewrite !fmap_cons, !filter_cons.
  destruct (decide (nonempty (filter_mediaQuery propertyFilter None mq))) as [Hp|Hp].
  - rewrite fmap_cons, filter_cons, IH.
    assert (filter_mediaQuery None selectorFilter (filter_mediaQuery propertyFilter None mq)
            = filter_mediaQuery propertyFilter selectorFilter mq) as ->; [|done].
    unfold filter_mediaQuery. cbn [rules condition breakpoint type].
    by rewrite filter_rules_selector_property.
  - rewrite IH. rewrite decide_False; [done|].
    apply nonempty_nil. cbn [filter_mediaQuery rules].
    rewrite <- filter_rules_selector_property.
    destruct (filter (λ rule, rule_matches propertyFilter None rule) (rules mq)) eqn:Hnil;
      [done|]. destruct Hp. unfold nonempty. cbn [filter_mediaQuery rules]. by rewrite Hnil.
Qed.

(** A filter that is absent or empty has no say. *)
Lemma applyFilters_no_property data :
  Js.truthy_str propertyFilter = false →
  applyFilters propertyFilter selectorFilter data = applyFilters None selectorFilter data.
Proof.
  intros Hp. unfold applyFilters. rewrite Hp. cbn [negb Js.truthy_str andb].
  destruct (negb (Js.truthy_str selectorFilter)); [done|]. do 2 f_equal.
  apply list_fmap_ext. intros _ mq _. unfold filter_mediaQuery.
  assert (filter (λ rule, rule_matches propertyFilter selectorFilter rule) (rules mq)
          = filter (λ rule, rule_matches None selectorFilter rule) (rules mq)) as ->; [|done].
  apply list_filter_iff. intros rule. unfold rule_matches. by rewrite Hp.
Qed.

Lemma applyFilters_no_selector data :
  Js.truthy_str selectorFilter = false →
  applyFilters propertyFilter selectorFilter data = applyFilters propertyFilter None data.
Proof.
  intros Hs. unfold applyFilters. rewrite Hs. cbn [negb Js.truthy_str andb].
  destruct (negb (Js.truthy_str propertyFilter)); [done|]. cbn [andb]. do 2 f_equal.
  apply list_fmap_ext. intros _ mq _. unfold filter_mediaQuery.
  assert (filter (λ rule, rule_matches propertyFilter selectorFilter rule) (rules mq)
          = filter (λ rule, rule_matches propertyFilter None rule) (rules mq)) as ->; [|done].
  apply list_filter_iff. intros rule. unfold rule_matches. by rewrite Hs.
Qed.

End composition.

(** X20.  Filtering by property and selector at once is filtering by the
    selector and then by the property, and also the other way round; a
    filter that is the empty string acts as an absent one. *)
Theorem applyFilters_one_after_the_other propertyFilter selectorFilter data :
  applyFilters propertyFilter selectorFilter data
  = applyFilters propertyFilter None (applyFilters None selectorFilter data)
  ∧ applyFilters propertyFilter selectorFilter data
    = applyFilters None selectorFilter (applyFilters propertyFilter None data)
  ∧ applyFilters (Some "") selectorFilter data = applyFilters None selectorFilter data
  ∧ applyFilters propertyFilter (Some "") data = applyFilters propertyFilter None data.
Proof.
  split_and!;
    [| |by apply applyFilters_no_property|by apply applyFilters_no_selector].
  - destruct (Js.truthy_str propertyFilter) eqn:Hp.
    + destruct (Js.truthy_str selectorFilter) eqn:Hs.
      * unfold applyFilters. rewrite Hp, Hs. cbn [negb andb Js.truthy_str mediaQueries
          breakpoints summary complexity].
        by rewrite filter_records_property_selector.
      * rewrite applyFilters_no_selector by done.
        unfold applyFilters at 3. by rewrite Hs.
    + rewrite applyFilters_no_property by done.
      rewrite (applyFilters_no_property propertyFilter None) by done. done.
  - destruct (Js.truthy_str selectorFilter) eqn:Hs.
    + destruct (Js.truthy_str propertyFilter) eqn:Hp.
      * unfold applyFilters. rewrite Hp, Hs. cbn [negb andb Js.truthy_str mediaQueries
          breakpoints summary complexity].
        by rewrite filter_records_selector_property.
      * rewrite applyFilters_no_property by done.
        unfold applyFilters at 3. by rewrite Hp.
    + rewrite applyFilters_no_selector by done.
      rewrite (applyFilters_no_selector None selectorFilter) by done. done.
Qed.

(** * Properties of the display and of the file name *)

(** ** Printing and parsing numbers *)

Section round_trip.

Lemma string_of_uint_digits d : all_digits (NilEmpty.string_of_uint d) = true.
Proof. induction d; cbn [NilEmpty.string_of_uint all_digits]; by rewrite ?IHd. Qed.

Lemma parseInt_go_pos d : ∀ a : positive,
  Js.parseInt_go (Z.pos a) (NilEmpty.string_of_uint d) = Z.pos (Pos.of_uint_acc d a).
Proof.
  induction d; intros a; cbn [NilEmpty.string_of_uint Js.parseInt_go Pos.of_uint_acc];
    [done|rewrite <- IHd; f_equal; rewrite ?Pos2Z.inj_add, ?Pos2Z.inj_mul;
          match goal with
          | |- context [Z.of_nat ?n] =>
              let v := eval vm_compute in (Z.of_nat n) in change (Z.of_nat n) with v
          end; lia..].
Qed.

Lemma parseInt_go_zero d :
  Js.parseInt_go 0 (NilEmpty.string_of_uint d) = Z.of_N (Pos.of_uint d).
Proof.
  induction d; cbn [NilEmpty.string_of_uint Js.parseInt_go Pos.of_uint]; [done|..];
    match goal with
    | |- context [Z.of_nat ?n] =>
        let v := eval vm_compute in (Z.of_nat n) in change (Z.of_nat n) with v
    end;
    [exact IHd|cbn [Z.of_N]; rewrite <- parseInt_go_pos; f_equal..].
Qed.

Lemma toString_pos p : Js.toString (Z.pos p) = NilEmpty.string_of_uint (Pos.to_uint p).
Proof.
  unfold Js.toString. cbn.
  pose proof (DecimalPos.Unsigned.to_uint_nonnil p). by destruct (Pos.to_uint p).
Qed.

(** Printing a non-negative integer and parsing it gives it back. *)
Lemma parseInt_toString n : 0 ≤ n → Js.parseInt (Js.toString n) = n.
Proof.
  destruct n as [|p|p]; [done| |lia]. intros _.
  rewrite toString_pos. unfold Js.parseInt.
  by rewrite parseInt_go_zero, DecimalPos.Unsigned.of_to.
Qed.

Lemma append_nil s : "" +:+ s = s.
Proof. reflexivity. Qed.

Lemma append_cons c s rest : String c s +:+ rest = String c (s +:+ rest).
Proof. reflexivity. Qed.

Lemma take_digits_app ds rest :
  all_digits ds = true →
  (∀ c rest', rest = String c rest' → Js.is_digit c = false) →
  Js.take_digits (ds +:+ rest) = (ds, rest).
Proof.
  intros Hds Hrest. induction ds as [|c ds IH]; rewrite ?append_nil, ?append_cons.
  - destruct rest as [|c rest']; [done|]. cbn [Js.take_digits]. by rewrite (Hrest c rest').
  - cbn [all_digits] in Hds. apply andb_true_iff in Hds as [Hc Hds].
    cbn [Js.take_digits]. by rewrite Hc, IH.
Qed.

Lemma first_digits_head c s :
  Js.is_digit c = true → first_digits (String c s) = Some (Js.take_digits (String c s)).1.
Proof. intros Hc. cbn [first_digits]. by rewrite Hc. Qed.

Lemma first_digits_skip c s :
  Js.is_digit c = false → first_digits (String c s) = first_digits s.
Proof. intros Hc. cbn [first_digits]. by rewrite Hc. Qed.

Lemma first_digits_app_is_Some prefix s :
  is_Some (first_digits s) → is_Some (first_digits (prefix +:+ s)).
Proof.
  intros Hs. induction prefix as [|c prefix IH]; [done|].
  rewrite append_cons. cbn [first_digits]. by destruct (Js.is_digit c).
Qed.

Lemma string_of_uint_starts_with_digit d :
  d ≠ Decimal.Nil →
  ∃ c s, NilEmpty.string_of_uint d = String c s ∧ Js.is_digit c = true.
Proof. destruct d; [done|intros _; cbn; eexists _, _; by split..]. Qed.

(** The text of an integer always holds a digit. *)
Lemma toString_has_digits n rest : is_Some (first_digits (Js.toString n +:+ rest)).
Proof.
  destruct n as [|p|p].
  - by eexists.
  - rewrite toString_pos.
    destruct (string_of_uint_starts_with_digit (Pos.to_uint p))
      as (c & s & -> & Hc); [apply DecimalPos.Unsigned.to_uint_nonnil|].
    rewrite append_cons, first_digits_head by done. by eexists.
  - unfold Js.toString. cbn [Z.to_int NilZero.string_of_int].
    rewrite append_cons, first_digits_skip by done.
    pose proof (DecimalPos.Unsigned.to_uint_nonnil p) as Hnil.
    destruct (string_of_uint_starts_with_digit (Pos.to_uint p))
      as (c & s & Heq & Hc); [done|].
    assert (NilZero.string_of_uint (Pos.to_uint p) = String c s) as ->
      by (by destruct (Pos.to_uint p)).
    rewrite append_cons, first_digits_head by done. by eexists.
Qed.

Lemma displayKey_has_digits mq :
  Js.truthy (breakpoint mq) = true → is_Some (first_digits (displayKey mq)).
Proof.
  unfold displayKey. destruct (breakpoint mq) as [n|]; [|done]. intros _.
  apply first_digits_app_is_Some.
  change (" " +:+ Js.toString n +:+ "px") with (String " " (Js.toString n +:+ "px")).
  rewrite first_digits_skip by done. apply toString_has_digits.
Qed.

End round_trip.

(** X21.  The sort key of a displayed group is the breakpoint of its
    records: for a record of type "min-width" or "max-width" with a positive
    breakpoint below 2^53, the range in which a number is printed with all
    its digits and parsed exactly, the digits found in its display key parse
    back to that breakpoint. *)
Theorem displayKey_pixels mq b :
  type mq = Some "min-width" ∨ type mq = Some "max-width" →
  breakpoint mq = Some b → 0 < b → b < 2 ^ 53 →
  key_pixels (displayKey mq) = Normal b.
Proof.
  intros Htype Hb Hpos _. unfold key_pixels, displayKey. rewrite Hb.
  destruct b as [|p|p]; [lia| |lia]. rewrite toString_pos.
  destruct (string_of_uint_starts_with_digit (Pos.to_uint p))
    as (c & s & Heq & Hc); [apply DecimalPos.Unsigned.to_uint_nonnil|].
  assert (first_digits (NilEmpty.string_of_uint (Pos.to_uint p) +:+ "px")
          = Some (NilEmpty.string_of_uint (Pos.to_uint p))) as Hdigits.
  { rewrite Heq, append_cons, first_digits_head by done.
    rewrite <- append_cons, <- Heq.
    rewrite take_digits_app; [done|apply string_of_uint_digits|].
    by intros c' rest' [= <- _]. }
  assert (Js.parseInt (NilEmpty.string_of_uint (Pos.to_uint p)) = Z.pos p) as Hparse.
  { rewrite <- toString_pos. by apply parseInt_toString. }
  destruct Htype as [-> | ->]; cbn [default from_option]; unfold id;
    repeat (rewrite append_cons || rewrite append_nil);
    repeat (rewrite first_digits_skip by done); by rewrite Hdigits, Hparse.
Qed.

Lemma displayKey_pixels_witness : key_pixels (displayKey landscape_tablet) = Normal 768.
Proof.
  apply (displayKey_pixels landscape_tablet 768); [by left|reflexivity|lia|lia].
Defined.

(** ** The groups of the breakdown *)

Section display.

Lemma Assoc_keys_get {V} k (m : list (string * V)) : k ∈ m.*1 → is_Some (Assoc.get k m).
Proof.
  induction m as [|[k0 v0] m IH]; cbn; [by intros ?%elem_of_nil|].
  case_decide; [by eexists|]. intros [?|?]%elem_of_cons; [done|]. by apply IH.
Qed.

Lemma Assoc_set_concat_snoc {A} k (old : list A) x (m : list (string * list A)) :
  Assoc.get k m = Some old → concat (Assoc.set k (old ++ [x]) m).*2 ≡ₚ x :: concat m.*2.
Proof.
  induction m as [|[k0 v0] m IH]; cbn; [done|].
  case_decide as Hk.
  - intros [= ->]. cbn. rewrite <- app_assoc. cbn. by rewrite <- Permutation_middle.
  - intros Hget. cbn. rewrite (IH Hget). by rewrite <- Permutation_middle.
Qed.

Lemma Assoc_set_concat_new {A} k (v : list A) (m : list (string * list A)) :
  Assoc.get k m = None → concat (Assoc.set k v m).*2 ≡ₚ v ++ concat m.*2.
Proof.
  induction m as [|[k0 v0] m IH]; cbn; [by rewrite app_nil_r|].
  case_decide as Hk; [done|]. intros Hget. cbn. rewrite (IH Hget).
  by rewrite !app_assoc, (Permutation_app_comm v0 v).
Qed.

(** One step of the grouping loop, for a record with a breakpoint. *)
Lemma group_for_display_step groups mq :
  Js.truthy (breakpoint mq) = true →
  NoDup groups.*1 →
  NoDup (group_for_display groups mq).*1
  ∧ (∀ key,
       Assoc.get key (group_for_display groups mq) =
         if decide (key = displayKey mq)
         then Some (default [] (Assoc.get key groups) ++ [mq])
         else Assoc.get key groups)
  ∧ concat (group_for_display groups mq).*2 ≡ₚ mq :: concat groups.*2.
Proof.
  intros Htruthy Hnd. unfold group_for_display. rewrite Htruthy. cbv zeta.
  destruct (Assoc.get (displayKey mq) groups) as [old|] eqn:Hget.
  - rewrite Hget. split_and!.
    + by apply Assoc_set_NoDup.
    + intros key. rewrite Assoc_get_set. case_decide; [by subst; rewrite Hget|done].
    + by apply Assoc_set_concat_snoc.
  - assert (Assoc.get (displayKey mq) (Assoc.set (displayKey mq) [] groups) = Some [])
      as Hnew by (rewrite Assoc_get_set; by case_decide).
    rewrite Hnew. split_and!.
    + by do 2 apply Assoc_set_NoDup.
    + intros key. rewrite !Assoc_get_set. case_decide; [by subst; rewrite Hget|done].
    + cbn [default from_option]. unfold id.
      rewrite (Assoc_set_concat_snoc _ [] mq _ Hnew).
      by rewrite (Assoc_set_concat_new _ [] _ Hget).
Qed.

Lemma displayed_under_snoc key mqs mq :
  displayed_under key (mqs ++ [mq]) =
    displayed_under key mqs ++
    (if decide (Js.truthy (breakpoint mq) = true ∧ displayKey mq = key) then [mq] else []).
Proof. unfold displayed_under. rewrite filter_app. f_equal. Qed.

(** The groups after the loop. *)
Lemma foldl_group_for_display mqs :
  let groups := foldl group_for_display [] mqs in
  NoDup groups.*1
  ∧ (∀ key,
       Assoc.get key groups =
         if decide (displayed_under key mqs = []) then None
         else Some (displayed_under key mqs))
  ∧ concat groups.*2 ≡ₚ filter (λ mq, Js.truthy (breakpoint mq) = true) mqs.
Proof.
  induction mqs as [|mq mqs IH] using rev_ind; cbv zeta.
  - split_and!; [constructor|done|done].
  - destruct IH as (Hnd & Hget & Hperm). rewrite foldl_snoc, filter_app.
    destruct (Js.truthy (breakpoint mq)) eqn:Htruthy.
    + destruct (group_for_display_step _ mq Htruthy Hnd) as (Hnd' & Hget' & Hperm').
      split_and!; [done| |].
      * intros key. rewrite Hget', Hget, displayed_under_snoc, Htruthy.
        destruct (decide (key = displayKey mq)) as [->|Hne].
        -- destruct (decide (true = true ∧ displayKey mq = displayKey mq)) as [_|Hn];
             [|by destruct Hn].
           destruct (decide (displayed_under (displayKey mq) mqs = [])) as [->|Hold];
             cbn [default from_option app]; unfold id.
           ++ by rewrite decide_False.
           ++ rewrite decide_False; [done|]. by intros [? _]%app_eq_nil.
        -- destruct (decide (true = true ∧ displayKey mq = key)) as [[_ Hk]|_];
             [congruence|]. by rewrite app_nil_r.
      * rewrite Hperm', Hperm, filter_cons, decide_True by done. cbn.
        by rewrite <- Permutation_cons_append.
    + assert (group_for_display (foldl group_for_display [] mqs) mq
              = foldl group_for_display [] mqs) as ->
        by (unfold group_for_display at 1; by rewrite Htruthy).
      split_and!; [done| |].
      * intros key. rewrite Hget, displayed_under_snoc, Htruthy.
        destruct (decide (false = true ∧ displayKey mq = key)) as [[Hf _]|_]; [done|].
        by rewrite app_nil_r.
      * rewrite Hperm, filter_cons. rewrite decide_False by congruence.
        cbn. by rewrite app_nil_r.
Qed.

End display.

(** X22.  The breakdown shows every record exactly once: the groups have
    pairwise distinct keys, each group holds the records with a non-zero
    breakpoint and that key in the order of the list, and the groups
    together with the records listed as other queries are the records of
    the data. *)
Theorem display_shows_each_record_once data :
  NoDup (breakpointGroups_of data).*1
  ∧ (∀ key,
       Assoc.get key (breakpointGroups_of data) =
         if decide (displayed_under key (mediaQueries data) = []) then None
         else Some (displayed_under key (mediaQueries data)))
  ∧ concat (breakpointGroups_of data).*2 ++ otherQueries_of data ≡ₚ mediaQueries data.
Proof.
  destruct (foldl_group_for_display (mediaQueries data)) as (Hnd & Hget & Hperm).
  split_and!; [done..|].
  unfold breakpointGroups_of, otherQueries_of. rewrite Hperm.
  assert (filter (λ mq, Js.truthy (breakpoint mq) = false) (mediaQueries data)
          = filter (λ mq, ¬ Js.truthy (breakpoint mq) = true) (mediaQueries data)) as ->.
  { apply list_filter_iff. intros mq.
    destruct (Js.truthy (breakpoint mq)); split; congruence. }
  apply filter_app_complement.
Qed.

(** ** The order of the groups *)

Section sorting.

Lemma insert_by_value_Permutation x l : insert_by_value x l ≡ₚ x :: l.
Proof.
  induction l as [|y l IH]; cbn [insert_by_value]; [done|].
  destruct (x.2 <=? y.2); [done|]. by rewrite IH, Permutation_swap.
Qed.

Lemma sort_by_value_Permutation l : sort_by_value l ≡ₚ l.
Proof.
  induction l as [|x l IH]; [done|].
  cbn [sort_by_value foldr]. fold (sort_by_value l).
  by rewrite insert_by_value_Permutation, IH.
Qed.

Lemma insert_by_value_sorted x l :
  StronglySorted Z.le l.*2 → StronglySorted Z.le (insert_by_value x l).*2.
Proof.
  induction l as [|y l IH]; cbn [insert_by_value]; intros Hsorted.
  - cbn. by repeat constructor.
  - rewrite fmap_cons in Hsorted. apply StronglySorted_inv in Hsorted as [Hl Hy].
    destruct (Z.leb_spec x.2 y.2) as [Hxy|Hxy].
    + rewrite !fmap_cons. constructor; [by constructor|].
      constructor; [done|]. eapply Forall_impl; [exact Hy|]. cbn. lia.
    + rewrite fmap_cons. constructor; [by apply IH|].
      rewrite insert_by_value_Permutation, fmap_cons.
      constructor; [lia|done].
Qed.

Lemma sort_by_value_sorted l : StronglySorted Z.le (sort_by_value l).*2.
Proof.
  induction l as [|x l IH]; [constructor|].
  cbn [sort_by_value foldr]. by apply insert_by_value_sorted.
Qed.

Lemma insert_by_value_stable v x l :
  filter (λ kv, kv.2 = v) (insert_by_value x l) = filter (λ kv, kv.2 = v) (x :: l).
Proof.
  induction l as [|y l IH]; cbn [insert_by_value]; [done|].
  destruct (Z.leb_spec x.2 y.2) as [Hxy|Hxy]; [done|].
  rewrite filter_cons, IH, !filter_cons.
  repeat case_decide; try done; lia.
Qed.

Lemma sort_by_value_stable v l :
  filter (λ kv, kv.2 = v) (sort_by_value l) = filter (λ kv, kv.2 = v) l.
Proof.
  induction l as [|x l IH]; [done|].
  cbn [sort_by_value foldr]. fold (sort_by_value l).
  by rewrite insert_by_value_stable, !filter_cons, IH.
Qed.

Lemma keys_pixels_Normal keys :
  Forall (λ key, is_Some (first_digits key)) keys →
  ∃ l, keys_pixels keys = Normal l
       ∧ l.*1 = keys
       ∧ Forall (λ kv, key_pixels kv.1 = Normal kv.2) l.
Proof.
  induction 1 as [|key keys [digits Hkey] _ (l & Hl & Hfst & Hall)].
  - exists []. by split_and!.
  - exists ((key, Js.parseInt digits) :: l). cbn [keys_pixels].
    unfold key_pixels at 1. rewrite Hkey, Hl. split_and!; [done|by rewrite fmap_cons, Hfst|].
    constructor; [|done]. unfold key_pixels. cbn. by rewrite Hkey.
Qed.

(** Every key of a group holds digits. *)
Lemma breakpointGroups_keys_have_digits data :
  Forall (λ key, is_Some (first_digits key)) (breakpointGroups_of data).*1.
Proof.
  destruct (foldl_group_for_display (mediaQueries data)) as (_ & Hget & _).
  apply Forall_forall. intros key Hin%Assoc_keys_get.
  unfold breakpointGroups_of in Hin. rewrite Hget in Hin.
  destruct (displayed_under key (mediaQueries data)) as [|mq rest] eqn:Hunder.
  - rewrite decide_True in Hin by done. by destruct Hin.
  - assert (mq ∈ displayed_under key (mediaQueries data)) as Hmq
      by (rewrite Hunder; apply list_elem_of_here).
    apply list_elem_of_filter in Hmq as [[Htruthy <-] _].
    by apply displayKey_has_digits.
Qed.

End sorting.

(** X23.  Sorting the keys of the groups never fails, since every key holds
    digits; the sorted keys are the keys of the groups, in non-decreasing
    order of the number parsed from each, and keys with the same number keep
    the order in which their groups were created. *)
Theorem sortedBreakpoints_spec data :
  ∃ l,
    l.*1 = (breakpointGroups_of data).*1
    ∧ Forall (λ kv, key_pixels kv.1 = Normal kv.2) l
    ∧ sortedBreakpoints_of data = Normal (sort_by_value l).*1
    ∧ sort_by_value l ≡ₚ l
    ∧ StronglySorted Z.le (sort_by_value l).*2
    ∧ ∀ v, filter (λ kv, kv.2 = v) (sort_by_value l) = filter (λ kv, kv.2 = v) l.
Proof.
  destruct (keys_pixels_Normal _ (breakpointGroups_keys_have_digits data))
    as (l & Hl & Hfst & Hall).
  exists l. split_and!;
    [done|done| |apply sort_by_value_Permutation|apply sort_by_value_sorted
    |intros v; apply sort_by_value_stable].
  unfold sortedBreakpoints_of. cbv zeta. rewrite Hl.
  destruct ((breakpointGroups_of data).*1) as [|k1 [|k2 keys]] eqn:Hkeys; [| |done].
  - by destruct l.
  - destruct l as [|[k v] [|kv l]]; [done| |done]. cbn in Hfst. by injection Hfst as ->.
Qed.

(** ** The file name *)

(** X24.  The host part of the default file name has the length of the host
    name and consists of ASCII letters, digits and hyphens only; replacing
    again changes nothing. *)
Theorem hyphenate_spec hostname :
  String.length (hyphenate hostname) = String.length hostname
  ∧ file_name_safe (hyphenate hostname) = true
  ∧ hyphenate (hyphenate hostname) = hyphenate hostname.
Proof.
  induction hostname as [|c s (Hlen & Hsafe & Hidem)]; [done|].
  cbn [hyphenate String.length file_name_safe]. rewrite Hlen, Hsafe, Hidem.
  split_and!; [done| |].
  - destruct (is_alnum c) eqn:Hc; [by rewrite Hc|]. done.
  - destruct (is_alnum c) eqn:Hc; [by rewrite Hc|]. done.
Qed.
